(** * cli-suite: the argument tokenizer ([Parser]) and the dispatch engine
    ([Program]) of [src/lib/input/parser.ts], with [runValidators] of the
    utilities module, embedded as Rocq functions.

    Conventions of the embedding.
    - A JavaScript string is a [string]; one [ascii] stands for one code
      unit.  Every primitive used by the source ([startsWith], [slice],
      [indexOf], [split], the test of the name pattern) works code unit by
      code unit, and the name pattern only accepts ASCII letters, digits,
      [-] and [_].
    - A plain JavaScript object used as a record of properties is an
      association list kept in the order in which [Object.entries]
      enumerates it.
    - A [Map] is an association list in insertion order.
    - Callbacks ([action]) are opaque: calling one is recorded as an event
      of a trace, tagged with the identity of the object that owns it.
      A callback is taken to return: a cycle in which an [action] throws
      (the source calls it with no guard, so the promise is rejected) is
      not described.
    - An exception (or a rejected promise) is an explicit error result. *)

From Stdlib Require Import String Ascii List Bool Arith NArith ZArith Lia.
From Equations Require Import Equations.
Import ListNotations.

Local Open Scope string_scope.
Local Open Scope list_scope.
Local Open Scope nat_scope.

(** ** JavaScript string primitives *)

Module JsString.

(** [s.startsWith(p)] *)
Definition startsWith (s p : string) : bool := String.prefix p s.

(** [s.slice(n)] for [0 <= n] *)
Fixpoint sliceFrom (n : nat) (s : string) : string :=
  match n, s with
  | 0, _ => s
  | S _, EmptyString => EmptyString
  | S n', String _ r => sliceFrom n' r
  end.

(** [s.slice(0, n)] for [0 <= n] *)
Fixpoint sliceTo (n : nat) (s : string) : string :=
  match n, s with
  | 0, _ => EmptyString
  | S _, EmptyString => EmptyString
  | S n', String c r => String c (sliceTo n' r)
  end.

(** [s.indexOf(c)] for a one-character needle; [None] stands for [-1]. *)
Fixpoint indexOf (c : ascii) (s : string) : option nat :=
  match s with
  | EmptyString => None
  | String a r =>
      if Ascii.eqb a c then Some 0
      else match indexOf c r with
           | Some i => Some (S i)
           | None => None
           end
  end.

(** [s.split(c)[0]]: the part of [s] before the first [c], all of [s]
    when [c] does not occur. *)
Fixpoint splitHead (c : ascii) (s : string) : string :=
  match s with
  | EmptyString => EmptyString
  | String a r => if Ascii.eqb a c then EmptyString else String a (splitHead c r)
  end.

(** [s[s.length - 1]] of a non-empty string, and the characters before
    it. *)
Fixpoint lastChar (a : ascii) (r : string) : ascii :=
  match r with
  | EmptyString => a
  | String b r' => lastChar b r'
  end.

Fixpoint initChars (a : ascii) (r : string) : list ascii :=
  match r with
  | EmptyString => []
  | String b r' => a :: initChars b r'
  end.

Definition ofChar (c : ascii) : string := String c EmptyString.

(** [xs.join(sep)] *)
Definition join (sep : string) (xs : list string) : string := String.concat sep xs.

Definition isEmpty (s : string) : bool :=
  match s with EmptyString => true | _ => false end.

End JsString.

Import JsString.

(** ** Plain objects as ordered property lists *)

Module JsObject.

Section Obj.
Context {V : Type}.

Definition t := list (string * V).

Definition keys (o : t) : list string := map fst o.

(** own-property test *)
Definition hasOwn (o : t) (k : string) : bool :=
  existsb (fun kv => String.eqb (fst kv) k) o.

Definition isDigit (c : ascii) : bool :=
  let n := nat_of_ascii c in (48 <=? n) && (n <=? 57).

Fixpoint digitsValue (s : string) (acc : N) : option N :=
  match s with
  | EmptyString => Some acc
  | String c r =>
      if isDigit c
      then digitsValue r (acc * 10 + N.of_nat (nat_of_ascii c - 48))%N
      else None
  end.

(** A property key is an array index when it is the canonical decimal
    spelling of an integer in [0, 2^32 - 2]; such keys are enumerated
    first, in ascending numeric order. *)
Definition arrayIndex (k : string) : option N :=
  match k with
  | EmptyString => None
  | String c r =>
      if Ascii.eqb c "0"
      then (if isEmpty r then Some 0%N else None)
      else match digitsValue k 0 with
           | Some n => if (n <? 4294967295)%N then Some n else None
           | None => None
           end
  end.

Fixpoint replace (k : string) (v : V) (o : t) : t :=
  match o with
  | [] => []
  | (k', v') :: o' =>
      if String.eqb k' k then (k', v) :: o' else (k', v') :: replace k v o'
  end.

Fixpoint insertIndex (n : N) (k : string) (v : V) (o : t) : t :=
  match o with
  | [] => [(k, v)]
  | (k', v') :: o' =>
      match arrayIndex k' with
      | Some m => if (m <? n)%N then (k', v') :: insertIndex n k v o'
                  else (k, v) :: o
      | None => (k, v) :: o
      end
  end.

(** [o[k] = v] on an ordinary object, for a key other than
    [__proto__] (the tokenizer stores no such key, see
    [proto_never_stored]): an existing property keeps its place, a new
    array index goes among the array indices, any other new key goes
    last. *)
Definition set (k : string) (v : V) (o : t) : t :=
  if hasOwn o k then replace k v o
  else match arrayIndex k with
       | Some n => insertIndex n k v o
       | None => o ++ [(k, v)]
       end.

End Obj.

Arguments t : clear implicits.

End JsObject.

(** ** The declarations of [types] *)

Module Types.

(** [string | string[] | boolean] *)
Inductive OptionValue : Type :=
| VBool (b : bool)
| VString (s : string)
| VArray (xs : list string).

(** [ParserResult] *)
Record ParserResult : Type := mkParserResult {
  options : JsObject.t OptionValue;
  commands : list string;
  errors : list string
}.

(** What a validator receives: [string | string[]]. *)
Inductive ValidatorInput : Type :=
| InString (s : string)
| InArray (xs : list string).

(** What a call [validator.validate(input)] does: it returns a value
    (only its truthiness is looked at), returns a promise that resolves
    to a value, throws, or returns a promise that rejects. *)
Inductive ValidateResult : Type :=
| Returns (value : bool)
| Resolves (value : bool)
| Throws (reason : string)
| Rejects (reason : string).

(** [Validator] *)
Record Validator : Type := mkValidator {
  validate : ValidatorInput -> ValidateResult;
  message : string
}.

(** [ArgOptions].  [oid] is the identity of the object: two references
    are the same object ([includes], [toContain]) exactly when the
    identities agree.  The [action] callback is represented by the
    events it produces, see [Event]; [description] plays no part in
    parsing. *)
Record ArgOptions : Type := mkArgOptions {
  oid : nat;
  short : option string;
  long : option string;
  validators : option (list Validator);
  defaultValue : option string
}.

(** [CommandOptions], with the identity [cid] of the object. *)
Record CommandOptions : Type := mkCommandOptions {
  cid : nat;
  name : string
}.

End Types.

Import Types.

(** Normal or abrupt completion of a call: a value, or an exception (for
    an [async] function, a rejected promise). *)
Inductive Completion (A : Type) : Type :=
| Normal (a : A)
| Abrupt (reason : string).
Arguments Normal {A} a.
Arguments Abrupt {A} reason.

(** ** The tokenizer *)

Module Parser.

(** The fields [parsedOptions], [parsedCommands], [parsingErrors]. *)
Record State : Type := mkState {
  parsedOptions : JsObject.t OptionValue;
  parsedCommands : list string;
  parsingErrors : list string
}.

Definition init : State := mkState [] [] [].

Definition setOption (k : string) (v : OptionValue) (st : State) : State :=
  mkState (JsObject.set k v (parsedOptions st)) (parsedCommands st) (parsingErrors st).

Definition pushCommand (a : string) (st : State) : State :=
  mkState (parsedOptions st) (parsedCommands st ++ [a]) (parsingErrors st).

Definition pushError (a : string) (st : State) : State :=
  mkState (parsedOptions st) (parsedCommands st) (parsingErrors st ++ [a]).

(** [/^[a-z0-9][a-z0-9-_]*$/i.test(input)] *)
Definition isAlnum (c : ascii) : bool :=
  let n := nat_of_ascii c in
  ((48 <=? n) && (n <=? 57)) || ((65 <=? n) && (n <=? 90)) || ((97 <=? n) && (n <=? 122)).

Definition isNameChar (c : ascii) : bool :=
  isAlnum c || Ascii.eqb c "-" || Ascii.eqb c "_".

Fixpoint allChars (p : ascii -> bool) (s : string) : bool :=
  match s with
  | EmptyString => true
  | String c r => p c && allChars p r
  end.

Definition isValidName (input : string) : bool :=
  match input with
  | EmptyString => false
  | String c r => isAlnum c && allChars isNameChar r
  end.

Definition notDash (a : string) : bool := negb (startsWith a "-").

(** The loop
    [while (nextIndex < args.length && !args[nextIndex].startsWith('-'))]
    started just after the option: the values pushed, and the arguments
    from the final [nextIndex] on. *)
Fixpoint collectValues (rest : list string) : list string * list string :=
  match rest with
  | [] => ([], [])
  | a :: rest' =>
      if notDash a
      then let '(values, after) := collectValues rest' in (a :: values, after)
      else ([], rest)
  end.

(** The three-way store on [values.length]. *)
Definition valueOf (values : list string) : OptionValue :=
  match values with
  | [] => VBool true
  | [v] => VString v
  | _ => VArray values
  end.

(** [parseLongArg(arg, currentIndex)]; [rest] is [args] from
    [currentIndex + 1] on, the second component of the result is [args]
    from one past the returned index on. *)
Definition parseLongArg (arg : string) (rest : list string) (st : State)
  : State * list string :=
  let argBody := sliceFrom 2 arg in
  match indexOf "=" argBody with
  | Some equalIndex =>
      let key := sliceTo equalIndex argBody in
      let value := sliceFrom (equalIndex + 1) argBody in
      (setOption key (VString value) st, rest)
  | None =>
      let key := argBody in
      let '(values, after) := collectValues rest in
      (setOption key (valueOf values) st, after)
  end.

(** [for (let i = 0; i < flags.length - 1; i++) parsedOptions[flags[i]] = true] *)
Fixpoint setFlags (cs : list ascii) (st : State) : State :=
  match cs with
  | [] => st
  | c :: cs' => setFlags cs' (setOption (ofChar c) (VBool true) st)
  end.

(** [parseShortArg(arg, currentIndex)], with the same reading of [rest]
    and of the result as [parseLongArg]. *)
Definition parseShortArg (arg : string) (rest : list string) (st : State)
  : State * list string :=
  let flags := sliceFrom 1 arg in
  if 1 <? String.length flags then
    match flags with
    | EmptyString => (st, rest)
    | String c r =>
        let st1 := setFlags (initChars c r) st in
        let lastFlag := ofChar (lastChar c r) in
        let '(values, after) := collectValues rest in
        (setOption lastFlag (valueOf values) st1, after)
    end
  else
    let flag := flags in
    let '(values, after) := collectValues rest in
    (setOption flag (valueOf values) st, after).

(** The first loop of [parse]: positional commands. *)
Fixpoint commandLoop (l : list string) (st : State) : State * list string :=
  match l with
  | [] => (st, [])
  | a :: rest =>
      if notDash a then commandLoop rest (pushCommand a st) else (st, l)
  end.

Lemma collectValues_length rest :
  length (snd (collectValues rest)) <= length rest.
Proof.
  induction rest as [|a rest IH]; simpl; [lia|].
  destruct (notDash a); simpl; [|lia].
  destruct (collectValues rest); simpl in *; lia.
Qed.

Lemma parseLongArg_length arg rest st :
  length (snd (parseLongArg arg rest st)) <= length rest.
Proof.
  unfold parseLongArg. destruct (indexOf _ _); simpl; [lia|].
  pose proof (collectValues_length rest).
  destruct (collectValues rest); simpl in *; lia.
Qed.

Lemma parseShortArg_length arg rest st :
  length (snd (parseShortArg arg rest st)) <= length rest.
Proof.
  unfold parseShortArg. pose proof (collectValues_length rest).
  destruct (1 <? _); [destruct (sliceFrom 1 arg)|];
    destruct (collectValues rest); simpl in *; lia.
Qed.

(** The second loop of [parse], on the arguments from index [i] on. *)
Equations? optionLoop (l : list string) (st : State) : State by wf (length l) lt :=
  optionLoop [] st := st;
  optionLoop (arg :: rest) st :=
    if startsWith arg "--" then
      let key := splitHead "=" (sliceFrom 2 arg) in
      if (1 <? String.length key) && isValidName key
      then optionLoop (snd (parseLongArg arg rest st)) (fst (parseLongArg arg rest st))
      else optionLoop rest (pushError arg st)
    else if startsWith arg "-" then
      if (1 <? String.length arg) && isValidName (sliceFrom 1 arg)
      then optionLoop (snd (parseShortArg arg rest st)) (fst (parseShortArg arg rest st))
      else optionLoop rest (pushError arg st)
    else optionLoop rest (pushError arg st).
Proof.
  all: simpl; try lia.
  - pose proof (parseLongArg_length arg rest st). lia.
  - pose proof (parseShortArg_length arg rest st). lia.
Qed.

(** [parse()] on [this.args] *)
Definition parse (args : list string) : State :=
  let '(st, rest) := commandLoop args init in optionLoop rest st.

Definition getResult (st : State) : ParserResult :=
  mkParserResult (parsedOptions st) (parsedCommands st) (parsingErrors st).

(** [new Parser(argv).getResult()] *)
Definition tokenize (argv : list string) : ParserResult :=
  getResult (parse (skipn 2 argv)).

End Parser.

(** ** [Map] objects with string keys *)

Module JsMap.

Section M.
Context {V : Type}.

Definition t := list (string * V).

Fixpoint get (m : t) (k : string) : option V :=
  match m with
  | [] => None
  | (k', v) :: m' => if String.eqb k' k then Some v else get m' k
  end.

(** [m.set(k, v)]: a present key keeps its place, a new one goes last. *)
Fixpoint set (k : string) (v : V) (m : t) : t :=
  match m with
  | [] => [(k, v)]
  | (k', v') :: m' =>
      if String.eqb k' k then (k', v) :: m' else (k', v') :: set k v m'
  end.

(** [m.values()] *)
Definition values (m : t) : list V := map snd m.

End M.

Arguments t : clear implicits.

End JsMap.

(** ** [runValidators] *)

(** Truthiness of a string: [validator.message], [options.short]. *)
Definition truthy (s : string) : bool := negb (isEmpty s).

Fixpoint runValidatorsFrom (input : ValidatorInput) (validators : list Validator)
  (errors : list string) : Completion (list string) :=
  match validators with
  | [] => Normal errors
  | validator :: rest =>
      match validate validator input with
      | Throws e | Rejects e => Abrupt e
      | Returns isValid | Resolves isValid =>
          if negb isValid && truthy (message validator)
          then runValidatorsFrom input rest (errors ++ [message validator])
          else runValidatorsFrom input rest errors
      end
  end.

Definition runValidators (input : ValidatorInput) (validators : list Validator)
  : Completion (list string) :=
  runValidatorsFrom input validators [].

(** ** The dispatcher *)

(** Calls observed during one [parse]: the callbacks, and the calls of
    [runValidators] (tagged with the option they are made for). *)
Inductive Event : Type :=
| CommandAction (command : nat) (value : list string)
| OptionAction (option : nat) (value : OptionValue)
| Validation (option : nat) (input : ValidatorInput).

Module Program.

(** The fields of a [Program]; [parser] is represented by the
    [ParserResult] its [getResult] returns. *)
Record State : Type := mkState {
  options : JsMap.t ArgOptions;
  commands : JsMap.t CommandOptions;
  parsingErrors : list string;
  unexpectedErrors : list string;
  validationErrors : JsObject.t string
}.

Definition new : State := mkState [] [] [] [] [].

(** [command(options)] *)
Definition command (opts : CommandOptions) (p : State) : State :=
  mkState (options p) (JsMap.set (name opts) opts (commands p))
          (parsingErrors p) (unexpectedErrors p) (validationErrors p).

Definition setOptionKey (k : option string) (opts : ArgOptions)
  (m : JsMap.t ArgOptions) : JsMap.t ArgOptions :=
  match k with
  | Some k => if truthy k then JsMap.set k opts m else m
  | None => m
  end.

(** [option(options)] *)
Definition option (opts : ArgOptions) (p : State) : State :=
  mkState (setOptionKey (long opts) opts (setOptionKey (short opts) opts (options p)))
          (commands p) (parsingErrors p) (unexpectedErrors p) (validationErrors p).

(** What one [parse] works on: the fields, the local
    [processedOptions], and the calls made so far. *)
Record Run : Type := mkRun {
  prog : State;
  processedOptions : list ArgOptions;
  trace : list Event
}.

Definition start (p : State) : Run := mkRun p [] [].

Definition emit (e : Event) (r : Run) : Run :=
  mkRun (prog r) (processedOptions r) (trace r ++ [e]).

Definition pushProcessed (o : ArgOptions) (r : Run) : Run :=
  mkRun (prog r) (processedOptions r ++ [o]) (trace r).

Definition pushParsingErrors (es : list string) (r : Run) : Run :=
  let p := prog r in
  mkRun (mkState (options p) (commands p) (parsingErrors p ++ es)
                 (unexpectedErrors p) (validationErrors p))
        (processedOptions r) (trace r).

Definition pushUnexpected (e : string) (r : Run) : Run :=
  let p := prog r in
  mkRun (mkState (options p) (commands p) (parsingErrors p)
                 (unexpectedErrors p ++ [e]) (validationErrors p))
        (processedOptions r) (trace r).

(** [this.validationErrors[key] = text]: on the key [__proto__] the
    inherited setter is called, and it ignores a string. *)
Definition setValidationError (key text : string) (r : Run) : Run :=
  let p := prog r in
  mkRun (mkState (options p) (commands p) (parsingErrors p) (unexpectedErrors p)
                 (if String.eqb key "__proto__" then validationErrors p
                  else JsObject.set key text (validationErrors p)))
        (processedOptions r) (trace r).

(** [processedOptions.includes(option)] *)
Definition includes (processed : list ArgOptions) (o : ArgOptions) : bool :=
  existsb (fun o' => oid o' =? oid o) processed.

(** Lines 306-313: the command. *)
Definition runCommand (res : ParserResult) (r : Run) : Run :=
  let found :=
    match Types.commands res with
    | [] => None
    | c :: _ => JsMap.get (commands (prog r)) c
    end in
  match found with
  | None => pushUnexpected (join " " (Types.commands res)) r
  | Some command => emit (CommandAction (cid command) (tl (Types.commands res))) r
  end.

(** How the body of the loop over the parsed options ends. *)
Inductive Step : Type :=
| Continue (r : Run)
| Break (r : Run)
| Throw (r : Run) (reason : string).

(** [typeof value === 'boolean' ? '' : value] *)
Definition validatorInput (value : OptionValue) : ValidatorInput :=
  match value with
  | VBool _ => InString ""
  | VString s => InString s
  | VArray xs => InArray xs
  end.

(** Lines 320-344: the body of the loop over the parsed options. *)
Definition processEntry (key : string) (value : OptionValue) (r : Run) : Step :=
  match JsMap.get (options (prog r)) key with
  | None => Continue (pushUnexpected key r)
  | Some option =>
      if includes (processedOptions r) option then Continue r
      else
        let r := pushProcessed option r in
        match validators option with
        | Some vs =>
            let r := emit (Validation (oid option) (validatorInput value)) r in
            match runValidators (validatorInput value) vs with
            | Abrupt e => Throw r e
            | Normal errors =>
                if 0 <? List.length errors
                then Break (setValidationError key (join (String "010" "") errors) r)
                else Continue (emit (OptionAction (oid option) value) r)
            end
        | None => Continue (emit (OptionAction (oid option) value) r)
        end
  end.

(** Lines 319-345: the loop; [None] is normal exit (also by [break]). *)
Fixpoint optionLoop (entries : list (string * OptionValue)) (r : Run)
  : Run * Datatypes.option string :=
  match entries with
  | [] => (r, None)
  | (key, value) :: rest =>
      match processEntry key value r with
      | Continue r' => optionLoop rest r'
      | Break r' => (r', None)
      | Throw r' e => (r', Some e)
      end
  end.

(** [options.hasOwnProperty(k)]: the method is the inherited one unless
    the object has an own property of that name, whose value (a boolean,
    a string or an array) cannot be called. *)
Definition hasOwnProperty (o : JsObject.t OptionValue) (k : string) : Completion bool :=
  if JsObject.hasOwn o "hasOwnProperty"
  then Abrupt "TypeError: options.hasOwnProperty is not a function"
  else Normal (JsObject.hasOwn o k).

(** [name && options.hasOwnProperty(name)], by truthiness *)
Definition hasName (o : JsObject.t OptionValue) (name : Datatypes.option string)
  : Completion bool :=
  match name with
  | Some n => if truthy n then hasOwnProperty o n else Normal false
  | None => Normal false
  end.

(** Lines 348-357: the loop over [this.options.values()]. *)
Fixpoint defaultLoop (o : JsObject.t OptionValue) (vals : list ArgOptions) (r : Run)
  : Run * Datatypes.option string :=
  match vals with
  | [] => (r, None)
  | option :: rest =>
      match hasName o (short option) with
      | Abrupt e => (r, Some e)
      | Normal hasShort =>
          match hasName o (long option) with
          | Abrupt e => (r, Some e)
          | Normal hasLong =>
              match defaultValue option with
              | Some d =>
                  if negb hasShort && negb hasLong then
                    if includes (processedOptions r) option then defaultLoop o rest r
                    else defaultLoop o rest
                           (emit (OptionAction (oid option) (VString d))
                                 (pushProcessed option r))
                  else defaultLoop o rest r
              | None => defaultLoop o rest r
              end
          end
      end
  end.

(** The outcome of one [parse]: the fields afterwards, the calls made,
    and the settlement of the returned promise. *)
Record Outcome : Type := mkOutcome {
  final : State;
  calls : list Event;
  settled : Completion bool
}.

Definition finish (r : Run) (c : Completion bool) : Outcome :=
  mkOutcome (prog r) (trace r) c.

(** [parse()] *)
Definition parse (p : State) (res : ParserResult) : Outcome :=
  let r := pushParsingErrors (Types.errors res) (start p) in
  let r := runCommand res r in
  match optionLoop (Types.options res) r with
  | (r, Some e) => finish r (Abrupt e)
  | (r, None) =>
      match defaultLoop (Types.options res) (JsMap.values (options (prog r))) r with
      | (r, Some e) => finish r (Abrupt e)
      | (r, None) =>
          finish r (Normal (0 <? List.length (JsObject.keys (validationErrors (prog r)))))
      end
  end.

Definition getParsingErrors (p : State) : list string := parsingErrors p.
Definition getUnexpectedErrors (p : State) : list string := unexpectedErrors p.
Definition getValidationErrors (p : State) : JsObject.t string := validationErrors p.

(** [getRegisteredCommands()]: [[...this.commands.values()]] *)
Definition getRegisteredCommands (p : State) : list CommandOptions :=
  JsMap.values (commands p).

(** The elements of [new Set(vals)] in insertion order, added to those
    already [seen]: an object is entered once, at its first occurrence. *)
Fixpoint setOf (seen vals : list ArgOptions) : list ArgOptions :=
  match vals with
  | [] => seen
  | o :: rest => if includes seen o then setOf seen rest else setOf (seen ++ [o]) rest
  end.

(** [getRegisteredOptions()]: [[...new Set(this.options.values())]] *)
Definition getRegisteredOptions (p : State) : list ArgOptions :=
  setOf [] (JsMap.values (options p)).

End Program.

(** ** [stringWidth] of the utilities, and [Table.pad] which uses it *)

Module Utils.

(** Here a string is the list of its UTF-16 code units, so that the
    characters outside Latin-1 the function is about can be written. *)
Definition isHighSurrogate (u : N) : bool := ((0xD800 <=? u) && (u <=? 0xDBFF))%N.
Definition isLowSurrogate (u : N) : bool := ((0xDC00 <=? u) && (u <=? 0xDFFF))%N.

(** [[...input]] with [codePointAt(0)] of each element: the code points
    of the string, a surrogate pair giving one and a lone surrogate
    itself. *)
Fixpoint codePoints (input : list N) : list N :=
  match input with
  | [] => []
  | h :: t =>
      match t with
      | l :: t' =>
          if isHighSurrogate h && isLowSurrogate l
          then (0x10000 + (h - 0xD800) * 0x400 + (l - 0xDC00))%N :: codePoints t'
          else h :: codePoints t
      | [] => [h]
      end
  end.

(** The body of the loop: what one code point adds to [width]. *)
Definition charWidth (code : N) : nat :=
  if ((code <=? 0x1f) || ((0x7f <=? code) && (code <=? 0x9f)))%N then 0
  else if (((0x0300 <=? code) && (code <=? 0x036f))
           || ((0x1ab0 <=? code) && (code <=? 0x1aff))
           || ((0x1dc0 <=? code) && (code <=? 0x1dff))
           || ((0x20d0 <=? code) && (code <=? 0x20ff))
           || ((0xfe20 <=? code) && (code <=? 0xfe2f)))%N then 0
  else if (((0x1100 <=? code) && (code <=? 0x115f))
           || ((0x2329 <=? code) && (code <=? 0x232a))
           || ((0x2e80 <=? code) && (code <=? 0xa4cf) && negb (code =? 0x303f))
           || ((0xac00 <=? code) && (code <=? 0xd7a3))
           || ((0xf900 <=? code) && (code <=? 0xfaff))
           || ((0xfe10 <=? code) && (code <=? 0xfe19))
           || ((0xfe30 <=? code) && (code <=? 0xfe6f))
           || ((0xff00 <=? code) && (code <=? 0xff60))
           || ((0xffe0 <=? code) && (code <=? 0xffe6))
           || ((0x20000 <=? code) && (code <=? 0x2fffd))
           || ((0x30000 <=? code) && (code <=? 0x3fffd)))%N then 2
  else if (((0x1f300 <=? code) && (code <=? 0x1f64f))
           || ((0x1f900 <=? code) && (code <=? 0x1f9ff))
           || ((0x1fa70 <=? code) && (code <=? 0x1faff)))%N then 2
  else 1.

(** [stringWidth(input)] *)
Definition stringWidth (input : list N) : nat :=
  fold_left (fun width code => width + charWidth code) (codePoints input) 0.

End Utils.

Module Table.
Import Utils.

(** [TableAlign] *)
Inductive TableAlign : Type := AlignLeft | AlignRight | AlignCenter.

(** [' '.repeat(n)] *)
Definition spaces (n : nat) : list N := repeat 0x20%N n.

(** [pad(text, width, align)] for a [width] that is a natural number. *)
Definition pad (text : list N) (width : nat) (align : TableAlign) : list N :=
  let len := stringWidth text in
  if width <=? len then text
  else
    let space := spaces (width - len) in
    match align with
    | AlignRight => space ++ text
    | AlignCenter =>
        let left := (width - len) / 2 in
        let right := width - len - left in
        spaces left ++ text ++ spaces right
    | AlignLeft => text ++ space
    end.

End Table.

(** ** The string and list validators *)

Module Validators.

(** The white space that [trim] removes, among the code units in use
    here: tab, line feed, vertical tab, form feed, carriage return, space
    and no-break space. *)
Definition isWhiteSpace (c : ascii) : bool :=
  let n := nat_of_ascii c in
  ((9 <=? n) && (n <=? 13)) || (n =? 32) || (n =? 160).

Fixpoint trimStart (s : string) : string :=
  match s with
  | EmptyString => EmptyString
  | String c r => if isWhiteSpace c then trimStart r else s
  end.

Fixpoint trimEnd (s : string) : string :=
  match s with
  | EmptyString => EmptyString
  | String c r =>
      match trimEnd r with
      | EmptyString => if isWhiteSpace c then EmptyString else String c EmptyString
      | r' => String c r'
      end
  end.

(** [value.trim()] *)
Definition trim (s : string) : string := trimEnd (trimStart s).

(** [Array.isArray(input) ? input.every(validateSingle) : validateSingle(input)] *)
Definition validateWith (validateSingle : string -> bool) (input : ValidatorInput)
  : ValidateResult :=
  match input with
  | InString s => Returns (validateSingle s)
  | InArray xs => Returns (forallb validateSingle xs)
  end.

Section Builders.
(** The text a template literal gives for a number. *)
Variable show : Z -> string.

(** [params.message ?? text] *)
Definition orDefault (message : option string) (text : string) : string :=
  match message with
  | Some m => m
  | None => text
  end.

(** [minLength({ length, message })], for an integer [length] *)
Definition minLength (length : Z) (message : option string) : Validator :=
  mkValidator
    (validateWith (fun value => (length <=? Z.of_nat (String.length (trim value)))%Z))
    (orDefault message ("Please enter at least " ++ show length ++ " characters.")%string).

(** [maxLength({ length, message })] *)
Definition maxLength (length : Z) (message : option string) : Validator :=
  mkValidator
    (validateWith (fun value => (Z.of_nat (String.length (trim value)) <=? length)%Z))
    (orDefault message ("Please enter no more than " ++ show length ++ " characters.")%string).

(** [isLengthInRange({ min, max, message })] *)
Definition isLengthInRange (min max : Z) (message : option string) : Validator :=
  mkValidator
    (validateWith (fun value =>
       let length := Z.of_nat (String.length (trim value)) in
       (min <=? length)%Z && (length <=? max)%Z))
    (orDefault message
       ("Please enter between " ++ show min ++ " and " ++ show max ++ " characters.")%string).

End Builders.

(** [inList({ list, message })] *)
Definition inList (list : list string) (message : option string) : Validator :=
  mkValidator
    (validateWith (fun value => existsb (String.eqb (trim value)) list))
    (orDefault message "Input is not allowed.").

End Validators.

(** * Properties of the tokenizer *)

Section ObjectFacts.
Context {V : Type}.
Implicit Types (o : JsObject.t V) (k : string) (v : V).

Lemma hasOwn_In o k : JsObject.hasOwn o k = true <-> In k (JsObject.keys o).
Proof.
  unfold JsObject.hasOwn, JsObject.keys. rewrite existsb_exists, in_map_iff.
  split; intros [[k' v] [H1 H2]]; simpl in *.
  - apply String.eqb_eq in H2. rewrite <- H2. now exists (k', v).
  - subst. exists (k, v). split; [assumption | apply String.eqb_refl].
Qed.

Lemma keys_replace o k v : JsObject.keys (JsObject.replace k v o) = JsObject.keys o.
Proof.
  induction o as [|[k' v'] o IH]; simpl; [reflexivity|].
  destruct (String.eqb k' k); simpl; [reflexivity | now rewrite IH].
Qed.

Lemma In_replace o k v kv :
  In kv (JsObject.replace k v o) -> In kv o \/ kv = (k, v).
Proof.
  induction o as [|[k' v'] o IH]; simpl; [tauto|].
  destruct (String.eqb k' k) eqn:E; simpl.
  - apply String.eqb_eq in E. subst. intros [<-|H]; auto.
  - intros [<-|H]; auto. destruct (IH H); auto.
Qed.

Lemma In_insertIndex n o k v kv :
  In kv (JsObject.insertIndex n k v o) <-> kv = (k, v) \/ In kv o.
Proof.
  induction o as [|[k' v'] o IH]; simpl; [intuition congruence|].
  destruct (JsObject.arrayIndex k'); [destruct (_ <? _)%N|]; simpl;
    rewrite ?IH; intuition congruence.
Qed.

Lemma In_set o k v kv : In kv (JsObject.set k v o) -> In kv o \/ kv = (k, v).
Proof.
  unfold JsObject.set. destruct (JsObject.hasOwn o k).
  - apply In_replace.
  - destruct (JsObject.arrayIndex k).
    + rewrite In_insertIndex. tauto.
    + rewrite in_app_iff. simpl. intuition congruence.
Qed.

Lemma In_keys_insertIndex n o k v k0 :
  In k0 (JsObject.keys (JsObject.insertIndex n k v o)) <-> k0 = k \/ In k0 (JsObject.keys o).
Proof.
  unfold JsObject.keys. rewrite !in_map_iff. split.
  - intros [kv [<- H]]. apply In_insertIndex in H as [->|H]; [now left|].
    right. now exists kv.
  - intros [->|[kv [<- H]]].
    + exists (k, v). split; [reflexivity|]. apply In_insertIndex. now left.
    + exists kv. split; [reflexivity|]. apply In_insertIndex. now right.
Qed.

Lemma NoDup_keys_insertIndex n o k v :
  ~ In k (JsObject.keys o) -> NoDup (JsObject.keys o) ->
  NoDup (JsObject.keys (JsObject.insertIndex n k v o)).
Proof.
  induction o as [|[k' v'] o IH]; simpl; intros Hk Hnd.
  - constructor; [tauto | constructor].
  - destruct (JsObject.arrayIndex k'); [destruct (_ <? _)%N|]; simpl.
    + inversion Hnd; subst. constructor.
      * fold (JsObject.keys (JsObject.insertIndex n k v o)).
        rewrite In_keys_insertIndex. intuition congruence.
      * apply IH; tauto.
    + constructor; [exact Hk | exact Hnd].
    + constructor; [exact Hk | exact Hnd].
Qed.

Lemma In_keys_set o k v k0 :
  In k0 (JsObject.keys (JsObject.set k v o)) <-> k0 = k \/ In k0 (JsObject.keys o).
Proof.
  unfold JsObject.set. destruct (JsObject.hasOwn o k) eqn:E.
  - rewrite keys_replace. apply hasOwn_In in E. intuition congruence.
  - destruct (JsObject.arrayIndex k).
    + apply In_keys_insertIndex.
    + unfold JsObject.keys. rewrite map_app, in_app_iff. simpl. intuition congruence.
Qed.

Lemma NoDup_keys_set o k v :
  NoDup (JsObject.keys o) -> NoDup (JsObject.keys (JsObject.set k v o)).
Proof.
  intros Hnd. unfold JsObject.set. destruct (JsObject.hasOwn o k) eqn:E.
  - now rewrite keys_replace.
  - assert (Hk : ~ In k (JsObject.keys o)).
    { rewrite <- hasOwn_In. congruence. }
    destruct (JsObject.arrayIndex k).
    + now apply NoDup_keys_insertIndex.
    + unfold JsObject.keys in *. rewrite map_app. simpl.
      apply NoDup_app; [assumption | repeat constructor; simpl; tauto |].
      intros x Hx [<-|[]]. contradiction.
Qed.

End ObjectFacts.

Module ParserFacts.
Import Parser.

(** The shape of a stored value: [true], a string, or an array of two
    strings or more. *)
Definition WellShaped (v : OptionValue) : Prop :=
  match v with
  | VBool b => b = true
  | VString _ => True
  | VArray xs => 2 <= List.length xs
  end.

Lemma valueOf_shaped values : WellShaped (valueOf values).
Proof. destruct values as [|a [|b l]]; simpl; auto; lia. Qed.

(** The keys the tokenizer stores: a name that passes the pattern, or a
    single character of a group of short flags. *)
Definition StoredKey (k : string) : Prop :=
  isValidName k = true \/ String.length k = 1.

Lemma indexOf_splitHead c s n : indexOf c s = Some n -> sliceTo n s = splitHead c s.
Proof.
  revert n. induction s as [|a s IH]; simpl; intros n H; [discriminate|].
  destruct (Ascii.eqb a c).
  - now injection H as <-.
  - destruct (indexOf c s) as [i|]; [|discriminate]. injection H as <-.
    simpl. now rewrite IH.
Qed.

Lemma indexOf_none_splitHead c s : indexOf c s = None -> splitHead c s = s.
Proof.
  induction s as [|a s IH]; simpl; intros H; [reflexivity|].
  destruct (Ascii.eqb a c); [discriminate|].
  destruct (indexOf c s); [discriminate|]. now rewrite IH.
Qed.

Section Preservation.
Variable P : State -> Prop.
Hypothesis Hset :
  forall k v st, StoredKey k -> WellShaped v -> P st -> P (setOption k v st).
Hypothesis Herr : forall a st, P st -> P (pushError a st).

Lemma setFlags_preserves cs st : P st -> P (setFlags cs st).
Proof.
  revert st. induction cs as [|c cs IH]; simpl; intros st HP; [exact HP|].
  apply IH, Hset; [now right | reflexivity | exact HP].
Qed.

Lemma parseLongArg_preserves arg rest st :
  isValidName (splitHead "=" (sliceFrom 2 arg)) = true ->
  P st -> P (fst (parseLongArg arg rest st)).
Proof.
  intros Hkey HP. unfold parseLongArg. destruct (indexOf _ _) as [n|] eqn:E.
  - cbn [fst]. apply Hset; [left | exact I | exact HP].
    now rewrite (indexOf_splitHead _ _ _ E).
  - destruct (collectValues rest) as [values after]; cbn [fst].
    apply Hset; [left | apply valueOf_shaped | exact HP].
    now rewrite <- (indexOf_none_splitHead _ _ E).
Qed.

Lemma parseShortArg_preserves arg rest st :
  isValidName (sliceFrom 1 arg) = true ->
  P st -> P (fst (parseShortArg arg rest st)).
Proof.
  intros Hkey HP. unfold parseShortArg.
  destruct (1 <? _); [destruct (sliceFrom 1 arg) as [|c r]|];
    try exact HP; destruct (collectValues rest) as [values after]; simpl.
  - apply Hset; [now right | apply valueOf_shaped | now apply setFlags_preserves].
  - apply Hset; [now left | apply valueOf_shaped | exact HP].
Qed.

(** A property of the state kept by every store of a well-shaped value
    under such a key and by every error push is kept by the loop over the
    options. *)
Lemma optionLoop_preserves l st : P st -> P (optionLoop l st).
Proof.
  funelim (optionLoop l st); intros HP; [exact HP|]. clear Heqcall.
  repeat match goal with
         | |- context [if ?b then _ else _] => destruct b eqn:?
         end; auto;
    match goal with
    | E : _ && _ = true |- _ => apply andb_true_iff in E as [_ E]
    end; auto using parseLongArg_preserves, parseShortArg_preserves.
Qed.

Lemma commandLoop_preserves l st :
  (forall a st, P st -> P (pushCommand a st)) ->
  P st -> P (fst (commandLoop l st)).
Proof.
  intros Hcmd. revert st. induction l as [|a l IH]; simpl; intros st HP; [exact HP|].
  destruct (notDash a); simpl; auto.
Qed.

Lemma parse_preserves args :
  (forall a st, P st -> P (pushCommand a st)) ->
  P init -> P (parse args).
Proof.
  intros Hcmd HP. unfold parse.
  pose proof (commandLoop_preserves args init Hcmd HP) as H.
  destruct (commandLoop args init) as [st rest]. simpl in H.
  now apply optionLoop_preserves.
Qed.

End Preservation.

(** The invariant of the options object. *)
Definition OptionsInv (st : State) : Prop :=
  NoDup (JsObject.keys (parsedOptions st)) /\
  Forall (fun kv => StoredKey (fst kv) /\ WellShaped (snd kv)) (parsedOptions st).

Lemma OptionsInv_parse args : OptionsInv (parse args).
Proof.
  apply parse_preserves; unfold OptionsInv; simpl.
  - intros k v st Hk Hv [Hnd Hall]. split; [now apply NoDup_keys_set|].
    rewrite Forall_forall in *. intros kv Hin.
    apply In_set in Hin as [Hin| ->]; [now apply Hall | now split].
  - tauto.
  - tauto.
  - split; constructor.
Qed.

(** No key of the tokenizer is [__proto__], the one key on which an
    assignment does not define a property. *)
Lemma proto_never_stored args :
  ~ In "__proto__" (JsObject.keys (parsedOptions (parse args))).
Proof.
  destruct (OptionsInv_parse args) as [_ H]. rewrite Forall_forall in H.
  unfold JsObject.keys. rewrite in_map_iff. intros ([k v] & Hk & Hin).
  simpl in Hk. subst k. destruct (H _ Hin) as [[Hv|Hl] _]; discriminate.
Qed.

(** *** Where a stored value comes from *)

(** The values an option takes from the arguments that follow it: the
    longest run of arguments that do not start with a dash. *)
Definition CollectedFrom (rest values : list string) : Prop :=
  exists after,
    rest = values ++ after /\
    Forall (fun a => startsWith a "-" = false) values /\
    match after with [] => True | a :: _ => startsWith a "-" = true end.

(** What is to be stored for the values collected: [true] for none, the
    string itself for one, the array of them for two or more. *)
Definition StoredFor (values : list string) (v : OptionValue) : Prop :=
  match values with
  | [] => v = VBool true
  | [x] => v = VString x
  | _ :: _ :: _ => v = VArray values
  end.

(** The binding of [k] to [v] is the one that the option argument [arg],
    followed by the arguments [rest], makes: a long option with [=]
    binds its key to the text after the first [=]; a long option without
    binds its key to what is stored for the values collected from
    [rest]; of a group of short flags every flag but the last is bound
    to [true] and the last to what is stored for the values collected. *)
Definition BoundBy (arg : string) (rest : list string) (k : string) (v : OptionValue)
  : Prop :=
  if startsWith arg "--" then
    let argBody := sliceFrom 2 arg in
    k = splitHead "=" argBody /\
    (1 <? String.length k) && isValidName k = true /\
    match indexOf "=" argBody with
    | Some equalIndex => v = VString (sliceFrom (equalIndex + 1) argBody)
    | None => exists values, CollectedFrom rest values /\ StoredFor values v
    end
  else
    startsWith arg "-" = true /\
    isValidName (sliceFrom 1 arg) = true /\
    exists c r,
      sliceFrom 1 arg = String c r /\
      ((In k (map ofChar (initChars c r)) /\ v = VBool true) \/
       (k = ofChar (lastChar c r) /\
        exists values, CollectedFrom rest values /\ StoredFor values v)).

(** A binding is explained by the arguments when one of them, at some
    place of the list, makes it. *)
Definition Explained (args : list string) (kv : string * OptionValue) : Prop :=
  exists pre arg rest,
    args = pre ++ arg :: rest /\ BoundBy arg rest (fst kv) (snd kv).

Lemma collectValues_collected rest :
  rest = fst (collectValues rest) ++ snd (collectValues rest) /\
  Forall (fun a => startsWith a "-" = false) (fst (collectValues rest)) /\
  match snd (collectValues rest) with
  | [] => True
  | a :: _ => startsWith a "-" = true
  end.
Proof.
  induction rest as [|a rest (IH1 & IH2 & IH3)]; simpl; [auto|].
  destruct (notDash a) eqn:E; unfold notDash in E.
  - destruct (collectValues rest) as [values after]; simpl in *.
    repeat split; [now f_equal | | exact IH3].
    constructor; [|exact IH2]. now destruct (startsWith a "-").
  - simpl. repeat split; [constructor|]. now destruct (startsWith a "-").
Qed.

Lemma collectValues_CollectedFrom rest : CollectedFrom rest (fst (collectValues rest)).
Proof.
  exists (snd (collectValues rest)). apply collectValues_collected.
Qed.

(** The values collected are determined by the arguments. *)
Lemma CollectedFrom_unique rest values values' :
  CollectedFrom rest values -> CollectedFrom rest values' -> values = values'.
Proof.
  intros (after & -> & Hv & Ha) (after' & Heq & Hv' & Ha').
  revert values' Heq Hv'. induction Hv as [|a values Hd _ IH]; intros values' Heq Hv'.
  - destruct Hv' as [|a' values' Hd' _]; [reflexivity|].
    simpl in Heq. subst after. simpl in Ha. congruence.
  - destruct Hv' as [|a' values' Hd' Hv'].
    + simpl in Heq. subst after'. simpl in Ha'. congruence.
    + simpl in Heq. injection Heq as <- Heq. f_equal. now apply IH.
Qed.

Lemma valueOf_StoredFor values : StoredFor values (valueOf values).
Proof. now destruct values as [|a [|b l]]. Qed.

Lemma Forall_setOption (P : string * OptionValue -> Prop) k v st :
  P (k, v) -> Forall P (parsedOptions st) -> Forall P (parsedOptions (setOption k v st)).
Proof.
  intros Hk Hall. simpl. rewrite Forall_forall in *. intros kv Hin.
  apply In_set in Hin as [Hin| ->]; auto.
Qed.

Lemma Forall_setFlags (P : string * OptionValue -> Prop) cs st :
  (forall c, In c cs -> P (ofChar c, VBool true)) ->
  Forall P (parsedOptions st) -> Forall P (parsedOptions (setFlags cs st)).
Proof.
  revert st. induction cs as [|c cs IH]; simpl; intros st Hcs Hall; [exact Hall|].
  apply IH; [auto|]. apply Forall_setOption; auto.
Qed.

Section Explanation.
Variable args : list string.

Lemma parseLongArg_explained pre arg rest st :
  args = pre ++ arg :: rest ->
  startsWith arg "--" = true ->
  (1 <? String.length (splitHead "=" (sliceFrom 2 arg)))
  && isValidName (splitHead "=" (sliceFrom 2 arg)) = true ->
  Forall (Explained args) (parsedOptions st) ->
  Forall (Explained args) (parsedOptions (fst (parseLongArg arg rest st))) /\
  exists pre', args = pre' ++ snd (parseLongArg arg rest st).
Proof.
  intros Hargs Hlong Hok Hall. unfold parseLongArg.
  destruct (indexOf "=" (sliceFrom 2 arg)) as [n|] eqn:E.
  - cbn [fst snd]. split; [|now exists (pre ++ [arg]); rewrite <- app_assoc].
    apply Forall_setOption; [|exact Hall].
    exists pre, arg, rest. split; [exact Hargs|]. unfold BoundBy. rewrite Hlong.
    cbv zeta. cbn [fst snd]. rewrite E, (indexOf_splitHead _ _ _ E). auto.
  - pose proof (collectValues_collected rest) as (Hrest & Hvals & Hafter).
    pose proof (collectValues_CollectedFrom rest) as Hcol.
    destruct (collectValues rest) as [values after]; cbn [fst snd] in *. split.
    + apply Forall_setOption; [|exact Hall].
      exists pre, arg, rest. split; [exact Hargs|]. unfold BoundBy. rewrite Hlong.
      cbv zeta. cbn [fst snd]. rewrite E, (indexOf_none_splitHead _ _ E) in *.
      repeat split; [exact Hok|]. exists values. split; [exact Hcol|].
      apply valueOf_StoredFor.
    + exists (pre ++ arg :: values). rewrite <- app_assoc. simpl. now rewrite <- Hrest.
Qed.

Lemma parseShortArg_explained pre arg rest st :
  args = pre ++ arg :: rest ->
  startsWith arg "--" = false ->
  startsWith arg "-" = true ->
  isValidName (sliceFrom 1 arg) = true ->
  Forall (Explained args) (parsedOptions st) ->
  Forall (Explained args) (parsedOptions (fst (parseShortArg arg rest st))) /\
  exists pre', args = pre' ++ snd (parseShortArg arg rest st).
Proof.
  intros Hargs Hlong Hdash Hok Hall.
  pose proof (collectValues_collected rest) as (Hrest & Hvals & Hafter).
  pose proof (collectValues_CollectedFrom rest) as Hcol.
  assert (Hpre : exists pre', args = pre' ++ snd (collectValues rest)).
  { exists (pre ++ arg :: fst (collectValues rest)).
    rewrite <- app_assoc. simpl. now rewrite <- Hrest. }
  assert (Hbound : forall c r k v,
             sliceFrom 1 arg = String c r ->
             (In k (map ofChar (initChars c r)) /\ v = VBool true) \/
             (k = ofChar (lastChar c r) /\
              exists values, CollectedFrom rest values /\ StoredFor values v) ->
             Explained args (k, v)).
  { intros c r k v Hflags Hkv. exists pre, arg, rest. split; [exact Hargs|].
    unfold BoundBy. rewrite Hlong. cbn [fst snd]. repeat split; auto.
    exists c, r. auto. }
  unfold parseShortArg. destruct (sliceFrom 1 arg) as [|c r] eqn:Hflags; [discriminate|].
  destruct (1 <? String.length (String c r)) eqn:Hlen;
    destruct (collectValues rest) as [values after]; cbn [fst snd] in *;
    (split; [|exact Hpre]).
  - apply Forall_setOption.
    + apply (Hbound c r); [reflexivity|]. right. split; [reflexivity|].
      exists values. split; [exact Hcol | apply valueOf_StoredFor].
    + apply Forall_setFlags; [|exact Hall]. intros c' Hc'.
      apply (Hbound c r); [reflexivity|]. left. split; [|reflexivity].
      now apply in_map.
  - destruct r as [|b r]; [|discriminate].
    apply Forall_setOption; [|exact Hall].
    apply (Hbound c ""); [reflexivity|]. right. split; [reflexivity|].
    exists values. split; [exact Hcol | apply valueOf_StoredFor].
Qed.

Lemma optionLoop_explained l st :
  forall pre, args = pre ++ l ->
  Forall (Explained args) (parsedOptions st) ->
  Forall (Explained args) (parsedOptions (optionLoop l st)).
Proof.
  funelim (optionLoop l st); intros pre Hargs Hall; [exact Hall|]. clear Heqcall.
  assert (Hnext : args = (pre ++ [arg]) ++ rest) by now rewrite <- app_assoc.
  destruct (startsWith arg "--") eqn:E2;
    [|destruct (startsWith arg "-") eqn:E1];
    match goal with
    | |- context [if ?b then _ else _] => destruct b eqn:Ev
    | _ => idtac
    end.
  - destruct (parseLongArg_explained pre arg rest st Hargs E2 Ev Hall) as [Hst [pre' Hp]].
    now apply (H pre').
  - now apply (H1 (pre ++ [arg])).
  - apply andb_true_iff in Ev as [_ Ev].
    destruct (parseShortArg_explained pre arg rest st Hargs E2 E1 Ev Hall) as [Hst [pre' Hp]].
    now apply (H0 pre').
  - now apply (H1 (pre ++ [arg])).
  - now apply (H1 (pre ++ [arg])).
Qed.

Lemma commandLoop_explained l st :
  parsedOptions (fst (commandLoop l st)) = parsedOptions st /\
  exists pre, l = pre ++ snd (commandLoop l st).
Proof.
  revert st. induction l as [|a l IH]; intros st; simpl; [split; [reflexivity | now exists []]|].
  destruct (notDash a).
  - destruct (IH (pushCommand a st)) as [-> [pre Hp]]. split; [reflexivity|].
    exists (a :: pre). simpl. now f_equal.
  - split; [reflexivity | now exists []].
Qed.

End Explanation.

Lemma parse_explained args : Forall (Explained args) (parsedOptions (parse args)).
Proof.
  unfold parse. destruct (commandLoop_explained args init) as [Ho [pre Hp]].
  destruct (commandLoop args init) as [st rest]. simpl in *.
  apply (optionLoop_explained args rest st pre Hp). rewrite Ho. constructor.
Qed.

(** C6.  For every argument list, every key of the options object of the
    tokenizer is bound once; the value is the boolean [true], a single
    string, or an array of two strings or more, never an empty (or a
    one-element) array; and the binding is the one made by an option
    argument of the list: for the key of a long option without [=] and
    for the last flag of a short option, with the values collected from
    the arguments that follow it (the longest run that does not start
    with a dash), the value is [true] when none was collected, the one
    string when one was, and the array of them, in order, when two or
    more were; for a long option with [=] it is the text after the
    first [=]; for a flag of a group other than the last it is
    [true]. *)
Theorem options_values_shape (argv : list string) :
  NoDup (JsObject.keys (Types.options (tokenize argv))) /\
  Forall (fun kv => match snd kv with
                    | VBool b => b = true
                    | VString _ => True
                    | VArray xs => 2 <= List.length xs
                    end)
         (Types.options (tokenize argv)) /\
  Forall (fun kv =>
            exists pre arg rest,
              skipn 2 argv = pre ++ arg :: rest /\
              BoundBy arg rest (fst kv) (snd kv))
         (Types.options (tokenize argv)).
Proof.
  destruct (OptionsInv_parse (skipn 2 argv)) as [Hnd Hall].
  split; [exact Hnd | split].
  - eapply Forall_impl; [|exact Hall]. now intros kv [_ H].
  - exact (parse_explained (skipn 2 argv)).
Qed.

(** The three forms on one list: no value, one value, two values, the
    text after [=], and a group of flags whose last takes the values. *)
Example stored_values_example :
  Types.options (tokenize ["node"; "cli"; "--none"; "--one"; "x"; "--two"; "x"; "y";
                           "--eq=z w"; "-abc"; "p"; "q"; "r"])
  = [("none", VBool true); ("one", VString "x"); ("two", VArray ["x"; "y"]);
     ("eq", VString "z w"); ("a", VBool true); ("b", VBool true);
     ("c", VArray ["p"; "q"; "r"])].
Proof. reflexivity. Qed.

(** *** Malformed option tokens *)

(** The part of a dash-prefixed token that is tested against the name
    pattern: after [--] and before the first [=], or after [-]. *)
Definition keyPortion (t : string) : string :=
  if startsWith t "--" then splitHead "=" (sliceFrom 2 t) else sliceFrom 1 t.

Lemma collectValues_count rest t :
  startsWith t "-" = true ->
  count_occ string_dec (snd (collectValues rest)) t = count_occ string_dec rest t.
Proof.
  intros Ht. induction rest as [|a rest IH]; simpl; [reflexivity|].
  destruct (notDash a) eqn:E.
  - destruct (collectValues rest) as [values after]; simpl in *.
    destruct (string_dec a t) as [->|]; [|exact IH].
    unfold notDash in E. rewrite Ht in E. discriminate.
  - reflexivity.
Qed.

Lemma parseLongArg_errors arg rest st :
  parsingErrors (fst (parseLongArg arg rest st)) = parsingErrors st.
Proof.
  unfold parseLongArg. destruct (indexOf _ _); [reflexivity|].
  now destruct (collectValues rest).
Qed.

Lemma setFlags_errors cs st : parsingErrors (setFlags cs st) = parsingErrors st.
Proof.
  revert st. induction cs as [|c cs IH]; simpl; intros; [reflexivity|].
  now rewrite IH.
Qed.

Lemma parseShortArg_errors arg rest st :
  parsingErrors (fst (parseShortArg arg rest st)) = parsingErrors st.
Proof.
  unfold parseShortArg.
  destruct (1 <? _); [destruct (sliceFrom 1 arg)|];
    try reflexivity; destruct (collectValues rest); simpl;
    now rewrite ?setFlags_errors.
Qed.

Lemma parseLongArg_count arg rest st t :
  startsWith t "-" = true ->
  count_occ string_dec (snd (parseLongArg arg rest st)) t = count_occ string_dec rest t.
Proof.
  intros Ht. unfold parseLongArg. destruct (indexOf _ _); [reflexivity|].
  pose proof (collectValues_count rest t Ht).
  now destruct (collectValues rest).
Qed.

Lemma parseShortArg_count arg rest st t :
  startsWith t "-" = true ->
  count_occ string_dec (snd (parseShortArg arg rest st)) t = count_occ string_dec rest t.
Proof.
  intros Ht. unfold parseShortArg. pose proof (collectValues_count rest t Ht).
  destruct (1 <? _); [destruct (sliceFrom 1 arg)|];
    try reflexivity; now destruct (collectValues rest).
Qed.

Lemma count_pushError a st t :
  count_occ string_dec (parsingErrors (pushError a st)) t
  = count_occ string_dec (parsingErrors st) t + count_occ string_dec [a] t.
Proof. simpl. now rewrite count_occ_app. Qed.

Section Malformed.
Variable t : string.
Hypothesis Hdash : startsWith t "-" = true.
Hypothesis Hbad : isValidName (keyPortion t) = false.

(** When the scan stands on the token, it pushes it and goes on. *)
Lemma optionLoop_malformed rest st :
  optionLoop (t :: rest) st = optionLoop rest (pushError t st).
Proof.
  simp optionLoop. pose proof Hbad as Hb. unfold keyPortion in Hb.
  destruct (startsWith t "--"); cbv zeta; rewrite ?Hdash, Hb, andb_false_r; reflexivity.
Qed.

Lemma optionLoop_count l st :
  count_occ string_dec (parsingErrors (optionLoop l st)) t
  = count_occ string_dec (parsingErrors st) t + count_occ string_dec l t.
Proof.
  funelim (optionLoop l st); [simpl; lia|].
  clear Heqcall. pose proof Hbad as Hb. unfold keyPortion in Hb.
  destruct (startsWith arg "--") eqn:E2;
    [|destruct (startsWith arg "-") eqn:E1];
    match goal with
    | |- context [if ?b then _ else _] => destruct b eqn:Ev
    | _ => idtac
    end.
  - rewrite H, parseLongArg_errors, parseLongArg_count by assumption.
    simpl. destruct (string_dec arg t) as [->|]; [|reflexivity].
    rewrite E2 in Hb. rewrite Hb, andb_false_r in Ev. discriminate.
  - rewrite H1, count_pushError. simpl. destruct (string_dec arg t); lia.
  - rewrite H0, parseShortArg_errors, parseShortArg_count by assumption.
    simpl. destruct (string_dec arg t) as [->|]; [|reflexivity].
    rewrite E2 in Hb. rewrite Hb, andb_false_r in Ev. discriminate.
  - rewrite H1, count_pushError. simpl. destruct (string_dec arg t); lia.
  - rewrite H1, count_pushError. simpl. destruct (string_dec arg t); lia.
Qed.

Lemma commandLoop_count l st :
  parsingErrors (fst (commandLoop l st)) = parsingErrors st /\
  count_occ string_dec (snd (commandLoop l st)) t = count_occ string_dec l t.
Proof.
  revert st. induction l as [|a l IH]; intros st; simpl; [auto|].
  destruct (notDash a) eqn:E; [|auto].
  destruct (IH (pushCommand a st)) as [-> ->]. split; [reflexivity|].
  destruct (string_dec a t) as [->|]; [|reflexivity].
  unfold notDash in E. rewrite Hdash in E. discriminate.
Qed.

Lemma parse_count args :
  count_occ string_dec (parsingErrors (parse args)) t = count_occ string_dec args t.
Proof.
  unfold parse. destruct (commandLoop_count args init) as [He Hc].
  destruct (commandLoop args init) as [st rest]. simpl in *.
  now rewrite optionLoop_count, He, Hc.
Qed.

(** The scan reaches every occurrence of the token: it is never taken
    as a command or as the value of an option. *)
Lemma collectValues_reaches pre post :
  exists pre', snd (collectValues (pre ++ t :: post)) = pre' ++ t :: post.
Proof.
  induction pre as [|a pre [pre' IH]]; simpl.
  - unfold notDash. rewrite Hdash. simpl. now exists [].
  - destruct (notDash a).
    + destruct (collectValues (pre ++ t :: post)). simpl in *. now exists pre'.
    + now exists (a :: pre).
Qed.

Lemma parseLongArg_reaches arg pre post st :
  exists pre', snd (parseLongArg arg (pre ++ t :: post) st) = pre' ++ t :: post.
Proof.
  unfold parseLongArg. destruct (indexOf _ _); simpl; [now exists pre|].
  destruct (collectValues_reaches pre post) as [pre' H].
  destruct (collectValues _). simpl in *. now exists pre'.
Qed.

Lemma parseShortArg_reaches arg pre post st :
  exists pre', snd (parseShortArg arg (pre ++ t :: post) st) = pre' ++ t :: post.
Proof.
  unfold parseShortArg. destruct (collectValues_reaches pre post) as [pre' H].
  destruct (1 <? _); [destruct (sliceFrom 1 arg)|];
    try (now exists pre); destruct (collectValues _); simpl in *; now exists pre'.
Qed.

(** The token stops the collection of values, and the loop over the
    commands, just as the end of the list does: what is done before it
    does not depend on it or on what follows it. *)
Lemma collectValues_before pre post :
  collectValues (pre ++ t :: post)
  = (fst (collectValues pre), snd (collectValues pre) ++ t :: post).
Proof.
  induction pre as [|a pre IH]; simpl.
  - unfold notDash. now rewrite Hdash.
  - destruct (notDash a); [|reflexivity]. rewrite IH.
    now destruct (collectValues pre).
Qed.

Lemma parseLongArg_before arg pre post st :
  parseLongArg arg (pre ++ t :: post) st
  = (fst (parseLongArg arg pre st), snd (parseLongArg arg pre st) ++ t :: post).
Proof.
  unfold parseLongArg. destruct (indexOf _ _); [reflexivity|].
  rewrite collectValues_before. now destruct (collectValues pre).
Qed.

Lemma parseShortArg_before arg pre post st :
  parseShortArg arg (pre ++ t :: post) st
  = (fst (parseShortArg arg pre st), snd (parseShortArg arg pre st) ++ t :: post).
Proof.
  unfold parseShortArg. rewrite collectValues_before.
  destruct (1 <? _); [destruct (sliceFrom 1 arg)|];
    try reflexivity; now destruct (collectValues pre).
Qed.

Lemma commandLoop_before pre post st :
  commandLoop (pre ++ t :: post) st
  = (fst (commandLoop pre st), snd (commandLoop pre st) ++ t :: post).
Proof.
  revert st. induction pre as [|a pre IH]; intros st; simpl.
  - unfold notDash. now rewrite Hdash.
  - destruct (notDash a); [apply IH | reflexivity].
Qed.

Section Before.
Variable post : list string.
Variable K : State -> State.
Hypothesis HK : forall st, optionLoop (t :: post) st = K st.

Lemma optionLoop_before_from pre st :
  optionLoop (pre ++ t :: post) st = K (optionLoop pre st).
Proof.
  funelim (optionLoop pre st); [apply HK|]. clear Heqcall.
  cbn [app]. rewrite optionLoop_equation_2. cbv zeta.
  rewrite parseLongArg_before, parseShortArg_before. cbn [fst snd].
  repeat match goal with
         | |- context [if ?b then _ else _] => destruct b
         end; auto.
Qed.

End Before.

(** The scan arrives at every occurrence of the token in the state in
    which it would end on the arguments before it. *)
Lemma optionLoop_before pre post st :
  optionLoop (pre ++ t :: post) st = optionLoop (t :: post) (optionLoop pre st).
Proof. now apply optionLoop_before_from. Qed.

Lemma parse_before pre post :
  parse (pre ++ t :: post) = optionLoop (t :: post) (parse pre).
Proof.
  unfold parse. rewrite commandLoop_before.
  destruct (commandLoop pre init) as [st rest]. cbn [fst snd].
  apply optionLoop_before.
Qed.

End Malformed.

(** C7.  A dash-prefixed token whose key portion fails the name pattern
    ([--], [-], [---x], a key with a [*], ...) is pushed to the errors
    once for each of its occurrences, as the whole original argument
    (with its [=value] part, if any), and introduces no key into the
    options: at each of its occurrences the tokenizer is in the state in
    which it ends on the arguments before the token; from there the
    token adds itself at the end of the errors, leaves the options and
    the commands as they are, and the scan goes on with the arguments
    after it.  The same holds of the step of the scan on the token from
    any state. *)
Theorem malformed_token_recorded (args : list string) (t : string)
  (Hdash : startsWith t "-" = true)
  (Hbad : isValidName (keyPortion t) = false) :
  count_occ string_dec (Types.errors (getResult (parse args))) t
  = count_occ string_dec args t /\
  (forall pre post, args = pre ++ t :: post ->
     parse args
     = optionLoop post
         (mkState (parsedOptions (parse pre)) (parsedCommands (parse pre))
                  (parsingErrors (parse pre) ++ [t]))) /\
  (forall pre, args = pre ++ [t] ->
     Types.options (getResult (parse args)) = Types.options (getResult (parse pre)) /\
     Types.errors (getResult (parse args)) = Types.errors (getResult (parse pre)) ++ [t]) /\
  (forall rest st,
     optionLoop (t :: rest) st
     = optionLoop rest
         (mkState (parsedOptions st) (parsedCommands st) (parsingErrors st ++ [t]))).
Proof.
  split; [now apply parse_count|]. split; [|split].
  - intros pre post ->. rewrite (parse_before t Hdash).
    now apply optionLoop_malformed.
  - intros pre ->. rewrite (parse_before t Hdash), (optionLoop_malformed t Hdash Hbad).
    rewrite optionLoop_equation_1. auto.
  - intros rest st. now apply optionLoop_malformed.
Qed.

(** The tokens [--], [-] and [---x], and tokens with a [*] in the key,
    are of that kind. *)
Example listed_tokens_malformed :
  Forall (fun t => startsWith t "-" = true /\ isValidName (keyPortion t) = false)
         ["--"; "-"; "---x"; "--a*b=1"; "--a*b"; "-a*"].
Proof. repeat constructor. Qed.

Lemma malformed_token_recorded_witness :
  let pre := ["run"; "--"; "-"; "---x"; "--a*b=1"; "-q*"; "--ok"; "v"] in
  let args := pre ++ ["--a*b=1"] in
  startsWith "--a*b=1" "-" = true /\
  isValidName (keyPortion "--a*b=1") = false /\
  count_occ string_dec (Types.errors (getResult (parse args))) "--a*b=1" = 2 /\
  Types.options (getResult (parse args)) = Types.options (getResult (parse pre)) /\
  Types.errors (getResult (parse args))
  = Types.errors (getResult (parse pre)) ++ ["--a*b=1"].
Proof.
  intros pre args. split; [reflexivity | split; [reflexivity|]].
  pose proof (malformed_token_recorded args "--a*b=1" eq_refl eq_refl) as H.
  split; [exact (proj1 H)|].
  exact (proj1 (proj2 (proj2 H)) pre eq_refl).
Defined.

(** With the options and the errors of that list written out. *)
Example malformed_tokens_example :
  getResult (parse ["run"; "--"; "-"; "---x"; "--a*b=1"; "-q*"; "--ok"; "v"; "--a*b=1"])
  = mkParserResult [("ok", VString "v")] ["run"]
      ["--"; "-"; "---x"; "--a*b=1"; "-q*"; "--a*b=1"].
Proof. reflexivity. Qed.

(** C8.  The argument list [deploy --force -abc --d --timeout=120] (what
    is left once the two leading entries are stripped) tokenizes to the
    commands [deploy], the options [force], [a], [b], [c] bound to
    [true] and [timeout] bound to ['120'], and the error [--d]. *)
Theorem tokenize_deploy (node script : string) :
  tokenize (node :: script :: ["deploy"; "--force"; "-abc"; "--d"; "--timeout=120"])
  = mkParserResult
      [("force", VBool true); ("a", VBool true); ("b", VBool true);
       ("c", VBool true); ("timeout", VString "120")]
      ["deploy"]
      ["--d"].
Proof. reflexivity. Qed.

(** *** The cases of the test suite of the tokenizer *)

Definition parseArgs (args : list string) : ParserResult :=
  tokenize ("node" :: "script.js" :: args).

Example test_positional_commands :
  parseArgs ["run"; "build"] = mkParserResult [] ["run"; "build"] [].
Proof. reflexivity. Qed.

Example test_long_values_then_option :
  parseArgs ["--files"; "file1.txt"; "file2.txt"; "--verbose"]
  = mkParserResult [("files", VArray ["file1.txt"; "file2.txt"]); ("verbose", VBool true)]
      [] [].
Proof. reflexivity. Qed.

Example test_combined_flags_with_values :
  parseArgs ["-xyz"; "val1"; "val2"]
  = mkParserResult [("x", VBool true); ("y", VBool true); ("z", VArray ["val1"; "val2"])]
      [] [].
Proof. reflexivity. Qed.

Example test_invalid_names :
  parseArgs ["--invalid*name"; "--a"; "-@"]
  = mkParserResult [] [] ["--invalid*name"; "--a"; "-@"].
Proof. reflexivity. Qed.

Example test_empty_value :
  parseArgs ["--key="] = mkParserResult [("key", VString "")] [] [].
Proof. reflexivity. Qed.

Example test_underscores_and_hyphens :
  parseArgs ["--my_option-name"; "value"]
  = mkParserResult [("my_option-name", VString "value")] [] [].
Proof. reflexivity. Qed.

Example test_mixed :
  parseArgs ["run"; "build"; "--verbose"; "-o"; "file.txt"]
  = mkParserResult [("verbose", VBool true); ("o", VString "file.txt")] ["run"; "build"] [].
Proof. reflexivity. Qed.

(** Keys that are array indices are enumerated first, in numeric order. *)
Example numeric_keys_first :
  Types.options (parseArgs ["-b"; "-2"; "--10"; "-1"; "x"])
  = [("1", VString "x"); ("2", VBool true); ("10", VBool true); ("b", VBool true)].
Proof. reflexivity. Qed.

End ParserFacts.

(** * Properties of the dispatcher *)

Section MapFacts.
Context {V : Type}.
Implicit Types (m : JsMap.t V) (k : string) (v : V).

Lemma get_set m k v k' :
  JsMap.get (JsMap.set k v m) k' = if String.eqb k k' then Some v else JsMap.get m k'.
Proof.
  induction m as [|[k0 v0] m IH]; simpl.
  - reflexivity.
  - destruct (String.eqb k0 k) eqn:E; simpl.
    + apply String.eqb_eq in E. subst. now destruct (String.eqb k k').
    + destruct (String.eqb k0 k') eqn:E'; [|exact IH].
      apply String.eqb_eq in E'. subst. now rewrite String.eqb_sym, E.
Qed.

Lemma get_In_values m k v : JsMap.get m k = Some v -> In v (JsMap.values m).
Proof.
  induction m as [|[k0 v0] m IH]; simpl; [discriminate|].
  destruct (String.eqb k0 k); [intros [= ->]; now left | auto].
Qed.

Lemma In_values_set m k v x :
  In x (JsMap.values (JsMap.set k v m)) -> x = v \/ In x (JsMap.values m).
Proof.
  induction m as [|[k0 v0] m IH]; simpl; [intuition|].
  destruct (String.eqb k0 k); simpl; intuition.
Qed.


End MapFacts.

Module ProgramFacts.
Import Program.

(** *** Registration *)

(** [k] is a name under which [option] files the declaration: its
    [short] or its [long], when truthy. *)
Definition nameIs (name : Datatypes.option string) (k : string) : bool :=
  match name with
  | Some n => truthy n && String.eqb n k
  | None => false
  end.

Definition hasKey (d : ArgOptions) (k : string) : bool :=
  nameIs (short d) k || nameIs (long d) k.

Lemma get_setOptionKey name d m k :
  JsMap.get (setOptionKey name d m) k
  = if nameIs name k then Some d else JsMap.get m k.
Proof.
  unfold setOptionKey, nameIs. destruct name as [n|]; [|reflexivity].
  destruct (truthy n); [|reflexivity]. simpl. apply get_set.
Qed.

Lemma get_option d p k :
  JsMap.get (options (Program.option d p)) k
  = if hasKey d k then Some d else JsMap.get (options p) k.
Proof.
  unfold hasKey. simpl. rewrite !get_setOptionKey.
  destruct (nameIs (long d) k), (nameIs (short d) k); reflexivity.
Qed.

(** C9.  Registering a declaration never fails ([option] is a total
    function on programs), binds each of its own keys to it, and leaves
    every other key as it was: when an earlier declaration [d0] is
    reachable under [k] and [k'], and only [k] is a key of the new
    declaration [d], then [k] now gives [d] and [k'] still gives [d0]. *)
Theorem option_rebinds_colliding_key_only
  (p : State) (d0 d : ArgOptions) (k k' : string)
  (Hk : JsMap.get (options p) k = Some d0)
  (Hk' : JsMap.get (options p) k' = Some d0)
  (Hcollide : hasKey d k = true)
  (Hother : hasKey d k' = false) :
  JsMap.get (options (Program.option d p)) k = Some d /\
  JsMap.get (options (Program.option d p)) k' = Some d0 /\
  forall k'', hasKey d k'' = false ->
    JsMap.get (options (Program.option d p)) k'' = JsMap.get (options p) k''.
Proof.
  repeat split.
  - now rewrite get_option, Hcollide.
  - now rewrite get_option, Hother.
  - intros k'' H. now rewrite get_option, H.
Qed.

Lemma option_rebinds_colliding_key_only_witness :
  let d0 := mkArgOptions 1 (Some "v") (Some "verbose") None None in
  let d := mkArgOptions 2 (Some "v") (Some "version") None None in
  let p := Program.option d0 Program.new in
  JsMap.get (options (Program.option d p)) "v" = Some d /\
  JsMap.get (options (Program.option d p)) "verbose" = Some d0.
Proof.
  intros d0 d p.
  pose proof (option_rebinds_colliding_key_only p d0 d "v" "verbose"
                eq_refl eq_refl eq_refl eq_refl) as H.
  split; [exact (proj1 H) | exact (proj1 (proj2 H))].
Defined.

(** *** The calls of one dispatch cycle *)

Definition isActionOf (o : nat) (e : Event) : bool :=
  match e with
  | OptionAction o' _ => o' =? o
  | _ => false
  end.

(** How many times the action of the declaration [o] is called. *)
Definition actionCount (o : nat) (tr : list Event) : nat :=
  List.length (filter (isActionOf o) tr).

Lemma actionCount_app o tr1 tr2 :
  actionCount o (tr1 ++ tr2) = actionCount o tr1 + actionCount o tr2.
Proof. unfold actionCount. now rewrite filter_app, length_app. Qed.

Lemma actionCount_In o v tr : In (OptionAction o v) tr -> 1 <= actionCount o tr.
Proof.
  intros H. apply in_split in H as (tr1 & tr2 & ->).
  rewrite actionCount_app. unfold actionCount at 2. simpl.
  rewrite Nat.eqb_refl. simpl. lia.
Qed.

Lemma actionCount_zero o tr :
  actionCount o tr = 0 -> forall v, ~ In (OptionAction o v) tr.
Proof. intros H v Hin. apply actionCount_In in Hin. lia. Qed.

Lemma includes_In processed d :
  includes processed d = true <-> In (oid d) (map oid processed).
Proof.
  unfold includes. rewrite existsb_exists, in_map_iff.
  split; intros [x [H1 H2]].
  - exists x. apply Nat.eqb_eq in H2. auto.
  - exists x. split; [assumption | now apply Nat.eqb_eq].
Qed.

Lemma includes_false processed d :
  includes processed d = false <-> ~ In (oid d) (map oid processed).
Proof. rewrite <- includes_In. destruct (includes processed d); intuition congruence. Qed.

(** The bookkeeping of [processedOptions]: no declaration is entered
    twice, and an action is called only for a declaration entered. *)
Definition Book (r : Run) : Prop :=
  NoDup (map oid (processedOptions r)) /\
  forall o, actionCount o (trace r)
            <= count_occ Nat.eq_dec (map oid (processedOptions r)) o.

Lemma Book_start p : Book (start p).
Proof. split; simpl; [apply NoDup_nil | intros; unfold actionCount; simpl; lia]. Qed.

Lemma Book_same r r' :
  processedOptions r' = processedOptions r ->
  (forall o, actionCount o (trace r') = actionCount o (trace r)) ->
  Book r -> Book r'.
Proof. intros Hp Ht [H1 H2]. split; rewrite Hp; [assumption|]. intros o. now rewrite Ht. Qed.

Lemma Book_emit_other e r :
  (forall o, isActionOf o e = false) -> Book r -> Book (emit e r).
Proof.
  intros He. apply Book_same; [reflexivity|]. intros o. simpl.
  rewrite actionCount_app. unfold actionCount at 2. simpl. rewrite He. simpl. lia.
Qed.

Lemma Book_pushProcessed d r :
  includes (processedOptions r) d = false -> Book r -> Book (pushProcessed d r).
Proof.
  intros Hin [H1 H2]. apply includes_false in Hin. split; simpl.
  - rewrite map_app. simpl. apply NoDup_app; [assumption | repeat constructor; simpl; tauto |].
    intros x Hx [<-|[]]. contradiction.
  - intros o. rewrite map_app, count_occ_app. specialize (H2 o). lia.
Qed.

(** Entering [d] and calling its action, in either order of the two
    fields. *)
Lemma Book_process d v r :
  includes (processedOptions r) d = false -> Book r ->
  Book (emit (OptionAction (oid d) v) (pushProcessed d r)).
Proof.
  intros Hin [H1 H2]. pose proof (proj1 (Book_pushProcessed d r Hin (conj H1 H2))) as Hnd.
  split; [exact Hnd|]. simpl. intros o.
  rewrite actionCount_app, map_app, count_occ_app. specialize (H2 o).
  unfold actionCount at 2. simpl.
  destruct (Nat.eq_dec (oid d) o) as [->|Hne].
  - rewrite Nat.eqb_refl. simpl. lia.
  - apply Nat.eqb_neq in Hne. rewrite Hne. simpl. lia.
Qed.

Definition stepRun (s : Step) : Run :=
  match s with
  | Continue r | Break r | Throw r _ => r
  end.

Lemma Book_processEntry key value r : Book r -> Book (stepRun (processEntry key value r)).
Proof.
  intros HB. unfold processEntry.
  destruct (JsMap.get _ key) as [d|]; [|exact HB].
  destruct (includes _ d) eqn:Hin; [exact HB|].
  assert (HV : forall i, Book (emit (Validation (oid d) i) (pushProcessed d r))).
  { intros i. apply Book_emit_other; [reflexivity | now apply Book_pushProcessed]. }
  destruct (validators d) as [vs|]; [|now apply Book_process].
  destruct (runValidators _ vs) as [errs|e]; [|apply HV].
  destruct (0 <? _); simpl.
  - apply (Book_same (emit (Validation (oid d) (validatorInput value))
                             (pushProcessed d r))); auto.
  - destruct (HV (validatorInput value)) as [H1 H2]. split; [exact H1|].
    simpl in *. intros o. specialize (H2 o).
    destruct (Book_process d value r Hin HB) as [_ H3]. specialize (H3 o). simpl in H3.
    rewrite !actionCount_app in *.
    assert (Hz : actionCount o [Validation (oid d) (validatorInput value)] = 0)
      by reflexivity.
    lia.
Qed.

Lemma Book_optionLoop entries r : Book r -> Book (fst (optionLoop entries r)).
Proof.
  revert r. induction entries as [|[key value] rest IH]; intros r HB; [exact HB|].
  simpl. pose proof (Book_processEntry key value r HB) as H.
  destruct (processEntry key value r); simpl in *; auto.
Qed.

Lemma Book_defaultLoop o vals r : Book r -> Book (fst (defaultLoop o vals r)).
Proof.
  revert r. induction vals as [|d rest IH]; intros r HB; [exact HB|].
  simpl. destruct (hasName o (short d)) as [hs|]; [|exact HB].
  destruct (hasName o (long d)) as [hl|]; [|exact HB].
  destruct (defaultValue d) as [dv|]; [|auto].
  destruct (negb hs && negb hl); [|auto].
  destruct (includes _ d) eqn:Hin; [auto|].
  apply IH. now apply Book_process.
Qed.

Lemma Book_runCommand res r : Book r -> Book (runCommand res r).
Proof.
  intros HB. unfold runCommand.
  destruct (match Types.commands res with [] => None | c :: _ => _ end).
  - now apply Book_emit_other.
  - exact HB.
Qed.

(** The run on which the loop over the parsed options starts. *)
Definition afterCommand (p : State) (res : ParserResult) : Run :=
  runCommand res (pushParsingErrors (Types.errors res) (start p)).

(** The run with which [parse] ends. *)
Definition lastRun (p : State) (res : ParserResult) : Run :=
  match optionLoop (Types.options res) (afterCommand p res) with
  | (r, Some e) => r
  | (r, None) =>
      fst (defaultLoop (Types.options res) (JsMap.values (options (prog r))) r)
  end.

Lemma parse_lastRun p res :
  final (parse p res) = prog (lastRun p res) /\
  calls (parse p res) = trace (lastRun p res).
Proof.
  unfold parse, lastRun, afterCommand.
  destruct (optionLoop _ _) as [r [e|]]; [now split|].
  destruct (defaultLoop _ _ r) as [r' [e|]]; now split.
Qed.

Lemma Book_lastRun p res : Book (lastRun p res).
Proof.
  unfold lastRun.
  pose proof (Book_optionLoop (Types.options res) (afterCommand p res)) as H.
  destruct (optionLoop _ _) as [r [e|]]; simpl in H.
  - apply H, Book_runCommand, (Book_same (start p)); auto using Book_start.
  - apply Book_defaultLoop, H, Book_runCommand, (Book_same (start p));
      auto using Book_start.
Qed.

(** In one dispatch cycle the action of a declaration is called at most
    once, whatever is registered and whatever is parsed. *)
Lemma action_once p res o : actionCount o (calls (parse p res)) <= 1.
Proof.
  destruct (parse_lastRun p res) as [_ ->].
  destruct (Book_lastRun p res) as [H1 H2].
  specialize (H2 o). pose proof (NoDup_count_occ Nat.eq_dec (map oid (processedOptions (lastRun p res)))) as H.
  apply H with (x := o) in H1. lia.
Qed.

(** C4.  When a declaration is registered under a short and a long name
    and both names are keys of the parsed options, one dispatch cycle
    calls its action at most once. *)
Theorem both_spellings_one_action
  (p : State) (res : ParserResult) (d : ArgOptions) (s l : string)
  (Hshort : short d = Some s) (Hlong : long d = Some l)
  (Hs : JsMap.get (options p) s = Some d)
  (Hl : JsMap.get (options p) l = Some d)
  (Hsupplied_s : In s (JsObject.keys (Types.options res)))
  (Hsupplied_l : In l (JsObject.keys (Types.options res))) :
  actionCount (oid d) (calls (parse p res)) <= 1.
Proof. apply action_once. Qed.

Lemma both_spellings_one_action_witness :
  let d := mkArgOptions 1 (Some "s") (Some "long") None None in
  let p := Program.option d (Program.command (mkCommandOptions 7 "cmd") Program.new) in
  let res := mkParserResult [("s", VBool true); ("long", VBool true)] ["cmd"] [] in
  actionCount 1 (calls (parse p res)) <= 1 /\
  calls (parse p res) = [CommandAction 7 []; OptionAction 1 (VBool true)].
Proof.
  intros d p res. split.
  - apply (both_spellings_one_action p res d "s" "long"); try reflexivity;
      simpl; tauto.
  - reflexivity.
Defined.

(** *** What the loops change *)

Definition isCommandAction (e : Event) : bool :=
  match e with
  | CommandAction _ _ => true
  | _ => false
  end.

(** From [r] to [r'] the registries and the parsing errors stay, and the
    unexpected errors, the calls and the processed declarations only
    grow at the end; no command action is among the new calls. *)
Record Grows (r r' : Run) : Prop := mkGrows {
  grows_options : options (prog r') = options (prog r);
  grows_commands : commands (prog r') = commands (prog r);
  grows_parsing : parsingErrors (prog r') = parsingErrors (prog r);
  grows_unexpected :
    exists us, unexpectedErrors (prog r') = unexpectedErrors (prog r) ++ us;
  grows_trace :
    exists tr, trace r' = trace r ++ tr /\ Forall (fun e => isCommandAction e = false) tr;
  grows_processed :
    exists ps, processedOptions r' = processedOptions r ++ ps
}.

Lemma Grows_refl r : Grows r r.
Proof.
  constructor; try reflexivity; exists []; rewrite app_nil_r; auto.
Qed.

Lemma Grows_trans r1 r2 r3 : Grows r1 r2 -> Grows r2 r3 -> Grows r1 r3.
Proof.
  intros [Ho Hc Hp [us Hu] [tr [Ht Hf]] [ps Hps]]
         [Ho' Hc' Hp' [us' Hu'] [tr' [Ht' Hf']] [ps' Hps']].
  constructor; try congruence.
  - exists (us ++ us'). rewrite Hu', Hu. now rewrite app_assoc.
  - exists (tr ++ tr'). split; [rewrite Ht', Ht; now rewrite app_assoc|].
    apply Forall_app. auto.
  - exists (ps ++ ps'). rewrite Hps', Hps. now rewrite app_assoc.
Qed.

Lemma Grows_pushUnexpected e r : Grows r (pushUnexpected e r).
Proof.
  constructor; try reflexivity; simpl.
  - now exists [e].
  - exists []. rewrite app_nil_r. auto.
  - exists []. now rewrite app_nil_r.
Qed.

Lemma Grows_pushProcessed d r : Grows r (pushProcessed d r).
Proof.
  constructor; try reflexivity; simpl.
  - exists []. now rewrite app_nil_r.
  - exists []. rewrite app_nil_r. auto.
  - now exists [d].
Qed.

Lemma Grows_emit e r : isCommandAction e = false -> Grows r (emit e r).
Proof.
  intros He. constructor; try reflexivity; simpl.
  - exists []. now rewrite app_nil_r.
  - exists [e]. auto.
  - exists []. now rewrite app_nil_r.
Qed.

Lemma Grows_setValidationError key text r : Grows r (setValidationError key text r).
Proof.
  constructor; try reflexivity; simpl.
  - exists []. now rewrite app_nil_r.
  - exists []. rewrite app_nil_r. auto.
  - exists []. now rewrite app_nil_r.
Qed.

Create HintDb grows.
#[local] Hint Resolve Grows_refl Grows_pushUnexpected Grows_pushProcessed
  Grows_emit Grows_setValidationError : grows.

Lemma Grows_processEntry key value r : Grows r (stepRun (processEntry key value r)).
Proof.
  unfold processEntry.
  destruct (JsMap.get _ key) as [d|]; simpl; auto with grows.
  destruct (includes _ d); simpl; auto with grows.
  assert (H1 : Grows r (pushProcessed d r)) by auto with grows.
  destruct (validators d) as [vs|].
  - assert (H2 : Grows r (emit (Validation (oid d) (validatorInput value))
                               (pushProcessed d r))).
    { eapply Grows_trans; [exact H1 | now apply Grows_emit]. }
    destruct (runValidators _ vs) as [errs|e]; [destruct (0 <? _)|]; simpl.
    + eapply Grows_trans; [exact H2 | apply Grows_setValidationError].
    + eapply Grows_trans; [exact H2 | now apply Grows_emit].
    + exact H2.
  - simpl. eapply Grows_trans; [exact H1 | now apply Grows_emit].
Qed.

Lemma Grows_optionLoop entries r : Grows r (fst (optionLoop entries r)).
Proof.
  revert r. induction entries as [|[key value] rest IH]; intros r; simpl;
    [apply Grows_refl|].
  pose proof (Grows_processEntry key value r) as H.
  destruct (processEntry key value r); simpl in *; auto.
  eapply Grows_trans; eauto.
Qed.

Lemma Grows_defaultLoop o vals r : Grows r (fst (defaultLoop o vals r)).
Proof.
  revert r. induction vals as [|d rest IH]; intros r; simpl; [apply Grows_refl|].
  destruct (hasName o (short d)) as [hs|]; [|apply Grows_refl].
  destruct (hasName o (long d)) as [hl|]; [|apply Grows_refl].
  destruct (defaultValue d) as [dv|]; [|auto].
  destruct (negb hs && negb hl); [|auto].
  destruct (includes _ d); [auto|].
  eapply Grows_trans; [|apply IH].
  eapply Grows_trans; [apply Grows_pushProcessed | now apply Grows_emit].
Qed.

Lemma Grows_lastRun p res : Grows (afterCommand p res) (lastRun p res).
Proof.
  unfold lastRun.
  pose proof (Grows_optionLoop (Types.options res) (afterCommand p res)) as H.
  destruct (optionLoop _ _) as [r [e|]]; simpl in H; [exact H|].
  eapply Grows_trans; [exact H | apply Grows_defaultLoop].
Qed.

(** The registries are those of the program all along. *)
Lemma afterCommand_options p res : options (prog (afterCommand p res)) = options p.
Proof.
  unfold afterCommand, runCommand.
  now destruct (match Types.commands res with [] => None | c :: _ => _ end).
Qed.

(** C10.  When the parsed commands are empty, the dispatcher appends the
    empty string to the unexpected errors (before anything the options
    add) and calls no command action, whatever commands are registered. *)
Theorem no_command_reported (p : State) (res : ParserResult)
  (Hnone : Types.commands res = []) :
  (exists later,
      getUnexpectedErrors (final (parse p res)) = getUnexpectedErrors p ++ "" :: later) /\
  forall c v, ~ In (CommandAction c v) (calls (parse p res)).
Proof.
  destruct (parse_lastRun p res) as [-> ->].
  destruct (Grows_lastRun p res) as [_ _ _ [us Hu] [tr [Ht Hf]] _].
  assert (Ha : afterCommand p res
               = pushUnexpected "" (pushParsingErrors (Types.errors res) (start p))).
  { unfold afterCommand, runCommand. now rewrite Hnone. }
  rewrite Ha in *. simpl in *. split.
  - exists us. unfold getUnexpectedErrors. rewrite Hu. now rewrite <- app_assoc.
  - intros c v Hin. rewrite Ht in Hin. rewrite Forall_forall in Hf.
    apply Hf in Hin. discriminate.
Qed.

Lemma no_command_reported_witness :
  let p := Program.command (mkCommandOptions 7 "run") Program.new in
  let res := Parser.tokenize ["node"; "cli"; "--force"] in
  Types.commands res = [] /\
  (exists later, getUnexpectedErrors (final (parse p res)) = "" :: later) /\
  forall c v, ~ In (CommandAction c v) (calls (parse p res)).
Proof.
  intros p res. split; [reflexivity|].
  exact (no_command_reported p res eq_refl).
Defined.

(** *** Validation *)

(** The value a call of [validate] settles to, after the [await]. *)
Definition settle (x : ValidateResult) : Completion bool :=
  match x with
  | Returns b | Resolves b => Normal b
  | Throws e | Rejects e => Abrupt e
  end.

Definition Settles (input : ValidatorInput) (v : Validator) : Prop :=
  exists b, settle (validate v input) = Normal b.

(** The validator evaluates to a falsy value. *)
Definition isFalsy (input : ValidatorInput) (v : Validator) : bool :=
  match settle (validate v input) with
  | Normal b => negb b
  | Abrupt _ => false
  end.

(** The validator evaluates to a falsy value and has a text to show. *)
Definition failsWithText (input : ValidatorInput) (v : Validator) : bool :=
  isFalsy input v && truthy (message v).

Definition failedMessages (input : ValidatorInput) (vs : list Validator) : list string :=
  map message (filter (failsWithText input) vs).

Lemma runValidatorsFrom_settled input vs errors :
  Forall (Settles input) vs ->
  runValidatorsFrom input vs errors = Normal (errors ++ failedMessages input vs).
Proof.
  intros H. revert errors. induction H as [|v vs [b Hb] _ IH]; intros errors; simpl.
  - now rewrite app_nil_r.
  - unfold failedMessages, failsWithText, isFalsy in *. simpl.
    destruct (validate v input) as [x|x|x|x]; simpl in *; try discriminate;
      injection Hb as <-;
      destruct (negb x && truthy (message v)); simpl;
      rewrite IH; rewrite <- ?app_assoc; reflexivity.
Qed.

Lemma runValidators_settled input vs :
  Forall (Settles input) vs -> runValidators input vs = Normal (failedMessages input vs).
Proof. intros H. unfold runValidators. now rewrite runValidatorsFrom_settled. Qed.

Lemma runValidatorsFrom_abrupt input vs1 v vs2 e errors :
  Forall (Settles input) vs1 -> settle (validate v input) = Abrupt e ->
  runValidatorsFrom input (vs1 ++ v :: vs2) errors = Abrupt e.
Proof.
  intros H He. revert errors. induction H as [|v1 vs1 [b Hb] _ IH]; intros errors; simpl.
  - destruct (validate v input); simpl in He; congruence.
  - destruct (validate v1 input); simpl in Hb; try discriminate;
      destruct (_ && _); apply IH.
Qed.

Lemma failedMessages_nil input vs :
  failedMessages input vs = [] <-> existsb (failsWithText input) vs = false.
Proof.
  unfold failedMessages. induction vs as [|v vs IH]; simpl; [tauto|].
  destruct (failsWithText input v); simpl; [intuition discriminate | exact IH].
Qed.

(** *** The loop over the parsed options, entry by entry *)

(** The entries are processed one after the other with no validation
    failure and no exception; the run reached after the last one. *)
Fixpoint continueAll (entries : list (string * OptionValue)) (r : Run)
  : Datatypes.option Run :=
  match entries with
  | [] => Some r
  | (key, value) :: rest =>
      match processEntry key value r with
      | Continue r' => continueAll rest r'
      | _ => None
      end
  end.

Lemma optionLoop_continueAll pre post r r1 :
  continueAll pre r = Some r1 -> optionLoop (pre ++ post) r = optionLoop post r1.
Proof.
  revert r. induction pre as [|[key value] pre IH]; simpl; intros r H.
  - now injection H as ->.
  - destruct (processEntry key value r); try discriminate. auto.
Qed.

(** The loop of [parse p res] reaches the entry [(key, value)] in the
    run [r1], with [post] still to come. *)
Definition Reaches (p : State) (res : ParserResult)
  (key : string) (value : OptionValue) (post : list (string * OptionValue))
  (r1 : Run) : Prop :=
  exists pre, Types.options res = pre ++ (key, value) :: post /\
              continueAll pre (afterCommand p res) = Some r1.

Lemma Reaches_optionLoop p res key value post r1 :
  Reaches p res key value post r1 ->
  optionLoop (Types.options res) (afterCommand p res)
  = optionLoop ((key, value) :: post) r1.
Proof. intros (pre & -> & H). now apply optionLoop_continueAll. Qed.

Lemma processEntry_options key value r :
  options (prog (stepRun (processEntry key value r))) = options (prog r).
Proof. apply Grows_processEntry. Qed.

Lemma continueAll_keeps pre r r1 :
  continueAll pre r = Some r1 ->
  options (prog r1) = options (prog r) /\
  validationErrors (prog r1) = validationErrors (prog r).
Proof.
  revert r. induction pre as [|[key value] pre IH]; simpl; intros r H.
  - injection H as ->. auto.
  - destruct (processEntry key value r) as [r'| |] eqn:E; try discriminate.
    destruct (IH _ H) as [-> ->]. unfold processEntry in E.
    destruct (JsMap.get _ key) as [d|]; [|injection E as <-; auto].
    destruct (includes _ d); [injection E as <-; auto|].
    destruct (validators d) as [vs|]; [|injection E as <-; auto].
    destruct (runValidators _ vs); [|discriminate].
    destruct (0 <? _); [discriminate|]. injection E as <-. auto.
Qed.

Lemma Reaches_keeps p res key value post r1 :
  Reaches p res key value post r1 ->
  options (prog r1) = options p /\ validationErrors (prog r1) = validationErrors p.
Proof.
  intros (pre & _ & H). apply continueAll_keeps in H as [-> ->].
  rewrite afterCommand_options. split; [reflexivity|].
  unfold afterCommand, runCommand.
  now destruct (match Types.commands res with [] => None | c :: _ => _ end).
Qed.

(** What the body of the loop does on a declaration with validators
    that all settle. *)
Lemma processEntry_validated key value r d vs :
  JsMap.get (options (prog r)) key = Some d ->
  includes (processedOptions r) d = false ->
  validators d = Some vs ->
  Forall (Settles (validatorInput value)) vs ->
  let r' := emit (Validation (oid d) (validatorInput value)) (pushProcessed d r) in
  processEntry key value r =
    if existsb (failsWithText (validatorInput value)) vs
    then Break (setValidationError key
                  (join (String "010" "") (failedMessages (validatorInput value) vs)) r')
    else Continue (emit (OptionAction (oid d) value) r').
Proof.
  intros Hg Hi Hv Hs. unfold processEntry. rewrite Hg, Hi, Hv.
  rewrite (runValidators_settled _ _ Hs).
  destruct (existsb _ vs) eqn:E.
  - destruct (failedMessages _ vs) eqn:F; [|reflexivity].
    apply failedMessages_nil in F. congruence.
  - apply failedMessages_nil in E. now rewrite E.
Qed.

(** *** Programs built by registration *)

Definition Registered (p : State) (d : ArgOptions) : Prop :=
  In d (JsMap.values (options p)).

(** A key leads to a declaration that has it as a name, and an identity
    stands for one declaration. *)
Record WellFormed (p : State) : Prop := mkWellFormed {
  wf_keys : forall k d, JsMap.get (options p) k = Some d -> hasKey d k = true;
  wf_ids : forall d1 d2, Registered p d1 -> Registered p d2 -> oid d1 = oid d2 -> d1 = d2
}.

Lemma WellFormed_new : WellFormed Program.new.
Proof. split; [discriminate | intros d1 d2 []]. Qed.

Lemma In_values_setOptionKey name d m x :
  In x (JsMap.values (setOptionKey name d m)) -> x = d \/ In x (JsMap.values m).
Proof.
  unfold setOptionKey. destruct name as [n|]; [|auto].
  destruct (truthy n); [apply In_values_set | auto].
Qed.

Lemma WellFormed_option d p :
  (forall d', Registered p d' -> oid d' = oid d -> d' = d) ->
  WellFormed p -> WellFormed (Program.option d p).
Proof.
  intros Hd [Hk Hi]. split.
  - intros k d'. rewrite get_option. destruct (hasKey d k) eqn:E.
    + now intros [= <-].
    + apply Hk.
  - assert (Hin : forall x, Registered (Program.option d p) x -> x = d \/ Registered p x).
    { intros x H. apply In_values_setOptionKey in H as [->|H]; [now left|].
      apply In_values_setOptionKey in H. exact H. }
    intros d1 d2 H1 H2 Ho.
    destruct (Hin _ H1) as [->|H1'], (Hin _ H2) as [->|H2']; auto.
    symmetry. apply Hd; auto.
Qed.

Lemma WellFormed_command c p : WellFormed p -> WellFormed (Program.command c p).
Proof. intros [Hk Hi]. split; assumption. Qed.

Lemma parse_options p res : options (final (parse p res)) = options p.
Proof.
  destruct (parse_lastRun p res) as [-> _].
  rewrite (grows_options _ _ (Grows_lastRun p res)). apply afterCommand_options.
Qed.

Lemma WellFormed_parse p res : WellFormed p -> WellFormed (final (parse p res)).
Proof.
  intros [Hk Hi]. unfold Registered in *. split; unfold Registered;
    rewrite parse_options; assumption.
Qed.

(** *** The default-value loop *)

(** Neither name of the declaration is found among the parsed options,
    as the loop tests it. *)
Definition Absent (o : JsObject.t OptionValue) (d : ArgOptions) : Prop :=
  hasName o (short d) = Normal false /\ hasName o (long d) = Normal false.

Lemma hasName_false_key o name k :
  hasName o name = Normal false -> nameIs name k = true -> ~ In k (JsObject.keys o).
Proof.
  unfold hasName, nameIs, hasOwnProperty. destruct name as [n|]; [|discriminate].
  destruct (truthy n); [|discriminate]. simpl. intros H E.
  apply String.eqb_eq in E. subst.
  destruct (JsObject.hasOwn o "hasOwnProperty"); [discriminate|].
  injection H as H. rewrite <- hasOwn_In. congruence.
Qed.

Lemma Absent_no_key o d k :
  Absent o d -> hasKey d k = true -> ~ In k (JsObject.keys o).
Proof.
  intros [Hs Hl] H. unfold hasKey in H. apply orb_true_iff in H as [H|H];
    eauto using hasName_false_key.
Qed.

Lemma hasName_normal o name b :
  hasName o name = Normal b ->
  (forall k, nameIs name k = true -> ~ In k (JsObject.keys o)) -> b = false.
Proof.
  unfold hasName, nameIs, hasOwnProperty. destruct name as [n|]; [|now intros [= <-]].
  destruct (truthy n); [|now intros [= <-]]. simpl.
  destruct (JsObject.hasOwn o "hasOwnProperty"); [discriminate|].
  intros [= <-] H. specialize (H n). rewrite String.eqb_refl in H.
  destruct (JsObject.hasOwn o n) eqn:E; [|reflexivity].
  apply hasOwn_In in E. now elim H.
Qed.

Lemma hasName_unshadowed o name :
  JsObject.hasOwn o "hasOwnProperty" = false -> exists b, hasName o name = Normal b.
Proof.
  intros H. unfold hasName, hasOwnProperty. rewrite H.
  destruct name as [n|]; [destruct (truthy n)|]; eauto.
Qed.

(** An event of the default-value loop: the action of a declaration
    among [vals] with a default value and no name among the parsed
    options, called with that default. *)
Definition DefaultCall (o : JsObject.t OptionValue) (vals : list ArgOptions)
  (e : Event) : Prop :=
  exists d dv, In d vals /\ defaultValue d = Some dv /\ Absent o d /\
               e = OptionAction (oid d) (VString dv).

Lemma DefaultCall_cons o d vals e : DefaultCall o vals e -> DefaultCall o (d :: vals) e.
Proof. intros (d' & dv & H & Hr). exists d', dv. split; [now right | exact Hr]. Qed.

Lemma defaultLoop_only o vals r :
  exists tr, trace (fst (defaultLoop o vals r)) = trace r ++ tr /\
             Forall (DefaultCall o vals) tr.
Proof.
  revert r. induction vals as [|d rest IH]; intros r; simpl.
  - exists []. now rewrite app_nil_r.
  - assert (Hskip : exists tr, trace (fst (defaultLoop o rest r)) = trace r ++ tr /\
                               Forall (DefaultCall o (d :: rest)) tr).
    { destruct (IH r) as (tr & Ht & Hf). exists tr. split; [exact Ht|].
      eapply Forall_impl; [|exact Hf]. apply DefaultCall_cons. }
    assert (Hstop : exists tr, trace r = trace r ++ tr /\
                               Forall (DefaultCall o (d :: rest)) tr).
    { exists []. now rewrite app_nil_r. }
    destruct (hasName o (short d)) as [hs|] eqn:Es; [|exact Hstop].
    destruct (hasName o (long d)) as [hl|] eqn:El; [|exact Hstop].
    destruct (defaultValue d) as [dv|] eqn:Ed; [|exact Hskip].
    destruct hs; [exact Hskip|]. destruct hl; [exact Hskip|]. simpl.
    destruct (includes _ d); [exact Hskip|].
    destruct (IH (emit (OptionAction (oid d) (VString dv)) (pushProcessed d r)))
      as (tr & Ht & Hf).
    exists (OptionAction (oid d) (VString dv) :: tr). split.
    + rewrite Ht. simpl. now rewrite <- app_assoc.
    + constructor.
      * exists d, dv. repeat split; auto. now left.
      * eapply Forall_impl; [|exact Hf]. apply DefaultCall_cons.
Qed.

Lemma trace_defaultLoop_incl o vals r e :
  In e (trace r) -> In e (trace (fst (defaultLoop o vals r))).
Proof.
  intros H. destruct (defaultLoop_only o vals r) as (tr & -> & _).
  apply in_or_app. now left.
Qed.

(** When the loop runs to its end, a declaration among [vals] with a
    default value, no name among the parsed options and not processed
    before has its action called with the default. *)
Lemma defaultLoop_fires o vals d dv :
  (forall d1 d2, In d1 vals -> In d2 vals -> oid d1 = oid d2 -> d1 = d2) ->
  In d vals -> defaultValue d = Some dv -> Absent o d ->
  forall r, snd (defaultLoop o vals r) = None ->
            includes (processedOptions r) d = false ->
            In (OptionAction (oid d) (VString dv)) (trace (fst (defaultLoop o vals r))).
Proof.
  intros Hco Hin Hdv [Hs Hl].
  induction vals as [|d0 rest IH]; [destruct Hin|]. intros r Hend Hinc. simpl in *.
  assert (Hco' : forall d1 d2, In d1 rest -> In d2 rest -> oid d1 = oid d2 -> d1 = d2)
    by (intros; apply Hco; auto).
  destruct (Nat.eq_dec (oid d0) (oid d)) as [Heq|Hne].
  - assert (d0 = d) by (apply Hco; auto). subst d0.
    rewrite Hs, Hl, Hdv in *. simpl in *. rewrite Hinc in *.
    apply trace_defaultLoop_incl. simpl. apply in_or_app. right. now left.
  - destruct Hin as [->|Hin]; [congruence|].
    destruct (hasName o (short d0)) as [hs|]; [|discriminate].
    destruct (hasName o (long d0)) as [hl|]; [|discriminate].
    destruct (defaultValue d0) as [dv0|]; [|auto].
    destruct (negb hs && negb hl); [|auto].
    destruct (includes _ d0) eqn:E0; [auto|].
    apply IH; auto. simpl. apply includes_false. rewrite map_app, in_app_iff.
    apply includes_false in Hinc. simpl. intuition.
Qed.

Lemma defaultLoop_unshadowed o vals r :
  JsObject.hasOwn o "hasOwnProperty" = false -> snd (defaultLoop o vals r) = None.
Proof.
  intros H. revert r. induction vals as [|d rest IH]; intros r; simpl; [reflexivity|].
  destruct (hasName_unshadowed o (short d) H) as [hs ->].
  destruct (hasName_unshadowed o (long d) H) as [hl ->].
  destruct (defaultValue d); [|auto].
  destruct (negb hs && negb hl); [destruct (includes _ d)|]; auto.
Qed.

(** *** Where the calls of the option loop come from *)

(** The declaration an event is about. *)
Definition eventOption (e : Event) : Datatypes.option nat :=
  match e with
  | CommandAction _ _ => None
  | OptionAction o _ | Validation o _ => Some o
  end.

(** The identity is that of a declaration found under a supplied key. *)
Definition Supplied (m : JsMap.t ArgOptions) (entries : list (string * OptionValue))
  (o : nat) : Prop :=
  exists key d, In key (map fst entries) /\ JsMap.get m key = Some d /\ oid d = o.

Definition FromSupplied (m : JsMap.t ArgOptions) (entries : list (string * OptionValue))
  (r r' : Run) : Prop :=
  exists tr ps,
    trace r' = trace r ++ tr /\
    processedOptions r' = processedOptions r ++ ps /\
    Forall (fun e => exists o, eventOption e = Some o /\ Supplied m entries o) tr /\
    Forall (fun d => Supplied m entries (oid d)) ps.

Lemma FromSupplied_refl m entries r : FromSupplied m entries r r.
Proof. exists [], []. rewrite !app_nil_r. auto. Qed.

Lemma Supplied_cons m kv entries o : Supplied m entries o -> Supplied m (kv :: entries) o.
Proof. intros (key & d & H & Hr). exists key, d. split; [now right | exact Hr]. Qed.

Lemma FromSupplied_step m key value entries r1 r2 r3 :
  FromSupplied m [(key, value)] r1 r2 -> FromSupplied m entries r2 r3 ->
  FromSupplied m ((key, value) :: entries) r1 r3.
Proof.
  intros (tr & ps & Ht & Hp & Hf & Hg) (tr' & ps' & Ht' & Hp' & Hf' & Hg').
  exists (tr ++ tr'), (ps ++ ps'). rewrite Ht', Ht, Hp', Hp, !app_assoc.
  repeat split; apply Forall_app; split.
  - eapply Forall_impl; [|exact Hf]. intros e (o & Ho & key' & d & [<-|[]] & Hd).
    exists o. split; [exact Ho|]. exists key, d. split; [now left | exact Hd].
  - eapply Forall_impl; [|exact Hf']. intros e (o & Ho & Hs).
    exists o. split; [exact Ho | now apply Supplied_cons].
  - eapply Forall_impl; [|exact Hg]. intros d' (key' & d & [<-|[]] & Hd).
    exists key, d. split; [now left | exact Hd].
  - eapply Forall_impl; [|exact Hg']. intros d'. apply Supplied_cons.
Qed.

Lemma processEntry_only key value r :
  FromSupplied (options (prog r)) [(key, value)] r (stepRun (processEntry key value r)).
Proof.
  unfold processEntry.
  destruct (JsMap.get _ key) as [d|] eqn:G; simpl;
    [|exists [], []; simpl; rewrite !app_nil_r; auto].
  destruct (includes _ d); simpl; [apply FromSupplied_refl|].
  assert (Hs : Supplied (options (prog r)) [(key, value)] (oid d)).
  { exists key, d. simpl. auto. }
  assert (He : forall e, eventOption e = Some (oid d) ->
               exists o, eventOption e = Some o /\
                         Supplied (options (prog r)) [(key, value)] o) by eauto.
  destruct (validators d) as [vs|].
  - destruct (runValidators _ vs) as [errs|e]; [destruct (0 <? _)|]; simpl.
    + exists [Validation (oid d) (validatorInput value)], [d]. auto 6.
    + exists [Validation (oid d) (validatorInput value); OptionAction (oid d) value], [d].
      simpl. rewrite <- app_assoc. auto 7.
    + exists [Validation (oid d) (validatorInput value)], [d]. auto 6.
  - simpl. exists [OptionAction (oid d) value], [d]. auto 6.
Qed.

Lemma optionLoop_only entries r :
  FromSupplied (options (prog r)) entries r (fst (optionLoop entries r)).
Proof.
  revert r. induction entries as [|[key value] rest IH]; intros r; simpl;
    [apply FromSupplied_refl|].
  pose proof (processEntry_only key value r) as H.
  pose proof (processEntry_options key value r) as Ho.
  destruct (processEntry key value r) as [r'|r'|r' e]; simpl in *.
  - eapply FromSupplied_step; [exact H|]. rewrite <- Ho. apply IH.
  - eapply FromSupplied_step; [exact H | apply FromSupplied_refl].
  - eapply FromSupplied_step; [exact H | apply FromSupplied_refl].
Qed.

(** The run with which the loop over the parsed options ends. *)
Definition afterOptions (p : State) (res : ParserResult) : Run :=
  fst (optionLoop (Types.options res) (afterCommand p res)).

(** The calls made afterwards, by the default-value loop. *)
Definition defaultCalls (p : State) (res : ParserResult) : list Event :=
  skipn (List.length (trace (afterOptions p res))) (calls (parse p res)).

Lemma afterOptions_options p res : options (prog (afterOptions p res)) = options p.
Proof.
  unfold afterOptions. rewrite (grows_options _ _ (Grows_optionLoop _ _)).
  apply afterCommand_options.
Qed.

Lemma calls_split p res :
  calls (parse p res) = trace (afterOptions p res) ++ defaultCalls p res /\
  Forall (DefaultCall (Types.options res) (JsMap.values (options p))) (defaultCalls p res).
Proof.
  unfold defaultCalls. destruct (parse_lastRun p res) as [_ ->].
  pose proof (afterOptions_options p res) as Ho.
  unfold lastRun, afterOptions in *.
  destruct (optionLoop _ _) as [r [e|]]; simpl in *.
  - rewrite skipn_all. rewrite app_nil_r. auto.
  - destruct (defaultLoop_only (Types.options res) (JsMap.values (options (prog r))) r)
      as (tr & -> & Hf).
    rewrite skipn_app, skipn_all, Nat.sub_diag. simpl. now rewrite <- Ho.
Qed.

Lemma trace_afterCommand p res e :
  In e (trace (afterCommand p res)) -> eventOption e = None.
Proof.
  unfold afterCommand, runCommand.
  destruct (match Types.commands res with [] => None | c :: _ => _ end); simpl;
    [intros [<-|[]]; reflexivity | tauto].
Qed.

Lemma processed_afterCommand p res : processedOptions (afterCommand p res) = [].
Proof.
  unfold afterCommand, runCommand.
  now destruct (match Types.commands res with [] => None | c :: _ => _ end).
Qed.

(** A registered declaration none of whose names is a supplied key is
    left alone by the loop over the parsed options. *)
Lemma afterOptions_untouched p res d :
  WellFormed p -> Registered p d ->
  (forall k, hasKey d k = true -> ~ In k (JsObject.keys (Types.options res))) ->
  includes (processedOptions (afterOptions p res)) d = false /\
  forall e, In e (trace (afterOptions p res)) -> eventOption e <> Some (oid d).
Proof.
  intros [Hk Hi] Hreg Habs.
  assert (Hno : ~ Supplied (options p) (Types.options res) (oid d)).
  { intros (key & d' & Hin & Hg & Ho).
    assert (d' = d)
      by (apply Hi; [eapply get_In_values; exact Hg | exact Hreg | exact Ho]).
    subst. apply (Habs key); auto. }
  destruct (optionLoop_only (Types.options res) (afterCommand p res))
    as (tr & ps & Ht & Hp & Hf & Hg).
  rewrite afterCommand_options in *. fold (afterOptions p res) in Ht, Hp.
  rewrite Ht, Hp, processed_afterCommand. simpl. rewrite Forall_forall in *. split.
  - apply includes_false. rewrite in_map_iff. intros (d' & Ho & Hin).
    apply Hg in Hin. now rewrite Ho in Hin.
  - intros e [H|H]%in_app_or.
    + apply trace_afterCommand in H. congruence.
    + destruct (Hf _ H) as (o & -> & Hs). now intros [= ->].
Qed.

(** *** Default values *)

Lemma Grows_trace_incl r r' e : Grows r r' -> In e (trace r) -> In e (trace r').
Proof.
  intros [_ _ _ _ (tr & -> & _) _] H. apply in_or_app. now left.
Qed.

Lemma Book_afterCommand p res : Book (afterCommand p res).
Proof. apply Book_runCommand, (Book_same (start p)); auto using Book_start. Qed.

Lemma Book_afterOptions p res : Book (afterOptions p res).
Proof. apply Book_optionLoop, Book_afterCommand. Qed.

Lemma Book_not_called r d :
  Book r -> includes (processedOptions r) d = false ->
  forall v, ~ In (OptionAction (oid d) v) (trace r).
Proof.
  intros [_ H] Hinc. apply actionCount_zero. apply includes_false in Hinc.
  specialize (H (oid d)). rewrite (proj1 (count_occ_not_In Nat.eq_dec _ _) Hinc) in H.
  lia.
Qed.

(** The default-value loop calls no action of a declaration one of
    whose names is a supplied key. *)
Lemma defaultCalls_not_supplied p res d k :
  WellFormed p -> Registered p d -> hasKey d k = true ->
  In k (JsObject.keys (Types.options res)) ->
  forall v, ~ In (OptionAction (oid d) v) (defaultCalls p res).
Proof.
  intros [_ Hi] Hreg Hk Hin v Hcall.
  destruct (calls_split p res) as [_ Hf]. rewrite Forall_forall in Hf.
  destruct (Hf _ Hcall) as (d' & dv & Hd' & _ & Habs & [= Ho _]).
  assert (d' = d) by (apply Hi; auto). subst.
  exact (Absent_no_key _ _ _ Habs Hk Hin).
Qed.

Lemma defaultLoop_names o vals r d :
  snd (defaultLoop o vals r) = None -> In d vals ->
  exists hs hl, hasName o (short d) = Normal hs /\ hasName o (long d) = Normal hl.
Proof.
  revert r. induction vals as [|d0 rest IH]; intros r Hend Hin; [destruct Hin|].
  simpl in Hend.
  destruct (hasName o (short d0)) as [hs|] eqn:Es; [|discriminate].
  destruct (hasName o (long d0)) as [hl|] eqn:El; [|discriminate].
  destruct Hin as [->|Hin]; [eauto|].
  destruct (defaultValue d0); [|eauto].
  destruct (negb hs && negb hl); [destruct (includes _ d0)|]; eauto.
Qed.

Lemma parse_calls_default p res :
  snd (optionLoop (Types.options res) (afterCommand p res)) = None ->
  calls (parse p res)
  = trace (fst (defaultLoop (Types.options res) (JsMap.values (options p))
                            (afterOptions p res))).
Proof.
  pose proof (afterOptions_options p res) as Ho.
  unfold parse, afterOptions in *. fold (afterCommand p res).
  destruct (optionLoop _ _) as [r [e|]]; simpl in *; [discriminate|].
  intros _. rewrite Ho. now destruct (defaultLoop _ _ r) as [r' [e|]].
Qed.

(** What a normal settlement of [parse] says about its two loops. *)
Lemma parse_settles p res b :
  settled (parse p res) = Normal b ->
  snd (optionLoop (Types.options res) (afterCommand p res)) = None /\
  snd (defaultLoop (Types.options res) (JsMap.values (options p)) (afterOptions p res))
  = None /\
  calls (parse p res)
  = trace (fst (defaultLoop (Types.options res) (JsMap.values (options p))
                            (afterOptions p res))).
Proof.
  pose proof (afterOptions_options p res) as Ho.
  unfold parse, afterOptions in *. fold (afterCommand p res).
  destruct (optionLoop _ _) as [r [e|]]; simpl in *; [discriminate|].
  rewrite Ho. destruct (defaultLoop _ _ r) as [r' [e|]]; simpl; [discriminate|].
  auto.
Qed.

Lemma optionLoop_settles entries r :
  (forall k d vs, JsMap.get (options (prog r)) k = Some d -> validators d = Some vs ->
                  forall input, Forall (Settles input) vs) ->
  snd (optionLoop entries r) = None.
Proof.
  revert r. induction entries as [|[key value] rest IH]; intros r Hs; [reflexivity|].
  simpl. pose proof (processEntry_options key value r) as Ho.
  destruct (processEntry key value r) as [r'|r'|r' e] eqn:E; simpl in *.
  - apply IH. now rewrite Ho.
  - reflexivity.
  - exfalso. unfold processEntry in E.
    destruct (JsMap.get _ key) as [d|] eqn:G; [|discriminate].
    destruct (includes _ d); [discriminate|].
    destruct (validators d) as [vs|] eqn:V; [|discriminate].
    rewrite (runValidators_settled _ _ (Hs _ _ _ G V _)) in E.
    destruct (0 <? _); discriminate.
Qed.

(** The dispatch completes when the validators of the registered
    declarations settle and no parsed key is [hasOwnProperty]. *)
Lemma parse_completes p res :
  JsObject.hasOwn (Types.options res) "hasOwnProperty" = false ->
  (forall k d vs, JsMap.get (options p) k = Some d -> validators d = Some vs ->
                  forall input, Forall (Settles input) vs) ->
  exists b, settled (parse p res) = Normal b.
Proof.
  intros Hplain Hs. unfold parse. fold (afterCommand p res).
  pose proof (optionLoop_settles (Types.options res) (afterCommand p res)) as H3.
  rewrite afterCommand_options in H3. specialize (H3 Hs).
  destruct (optionLoop _ _) as [r [e|]]; simpl in H3; [discriminate|].
  pose proof (defaultLoop_unshadowed (Types.options res)
                (JsMap.values (options (prog r))) r Hplain) as H4.
  destruct (defaultLoop _ _ r) as [r' [e|]]; simpl in H4; [discriminate|].
  simpl. eauto.
Qed.

(** When neither loop is cut short, a registered declaration with a
    default value and no supplied name has its action called with the
    default. *)
Lemma default_called p res d dv :
  WellFormed p -> Registered p d -> defaultValue d = Some dv ->
  (forall k, hasKey d k = true -> ~ In k (JsObject.keys (Types.options res))) ->
  snd (defaultLoop (Types.options res) (JsMap.values (options p)) (afterOptions p res))
  = None ->
  In (OptionAction (oid d) (VString dv))
     (trace (fst (defaultLoop (Types.options res) (JsMap.values (options p))
                              (afterOptions p res)))).
Proof.
  intros Hwf Hreg Hdv Habs Hend.
  destruct (defaultLoop_names _ _ _ d Hend Hreg) as (hs & hl & Hs & Hl).
  assert (HA : Absent (Types.options res) d).
  { split.
    - rewrite Hs. f_equal. apply (hasName_normal _ _ _ Hs).
      intros k Hk. apply Habs. unfold hasKey. now rewrite Hk.
    - rewrite Hl. f_equal. apply (hasName_normal _ _ _ Hl).
      intros k Hk. apply Habs. unfold hasKey. rewrite Hk. apply orb_true_r. }
  apply defaultLoop_fires; auto.
  - exact (wf_ids p Hwf).
  - now apply afterOptions_untouched.
Qed.

(** C5, amended.  For a registered declaration with a default value:
    in a dispatch cycle that completes (no validator throws or rejects
    and the test of the names is not cut short), if neither of its names
    is a key of the parsed options, its action is called exactly once,
    with the default value, and no validation is run for it; and in
    every cycle, if one of its names is a key of the parsed options
    (whatever the value), the default-value loop does not call its
    action. *)
Theorem default_value_action
  (p : State) (res : ParserResult) (d : ArgOptions) (dv : string)
  (Hwf : WellFormed p) (Hreg : Registered p d) (Hdv : defaultValue d = Some dv) :
  ((exists b, settled (parse p res) = Normal b) ->
   (forall k, hasKey d k = true -> ~ In k (JsObject.keys (Types.options res))) ->
   actionCount (oid d) (calls (parse p res)) = 1 /\
   In (OptionAction (oid d) (VString dv)) (calls (parse p res)) /\
   forall input, ~ In (Validation (oid d) input) (calls (parse p res)))
  /\
  (forall k, hasKey d k = true -> In k (JsObject.keys (Types.options res)) ->
   forall v, ~ In (OptionAction (oid d) v) (defaultCalls p res)).
Proof.
  split.
  - intros [b Hb] Habs. destruct (parse_settles p res b Hb) as (_ & Hend & Hcalls).
    assert (Hin : In (OptionAction (oid d) (VString dv)) (calls (parse p res))).
    { rewrite Hcalls. now apply default_called. }
    repeat split.
    + pose proof (action_once p res (oid d)). apply actionCount_In in Hin. lia.
    + exact Hin.
    + intros input Hv. destruct (calls_split p res) as [Hsplit Hf].
      rewrite Hsplit in Hv. apply in_app_or in Hv as [Hv|Hv].
      * destruct (afterOptions_untouched p res d Hwf Hreg Habs) as [_ Hno].
        now apply (Hno _ Hv).
      * rewrite Forall_forall in Hf.
        destruct (Hf _ Hv) as (d' & dv' & _ & _ & _ & [=]).
  - intros k Hk Hin. now apply (defaultCalls_not_supplied p res d k).
Qed.

Lemma default_value_action_witness :
  let range := mkValidator (fun _ => Returns false) "out of range" in
  let d := mkArgOptions 1 (Some "t") (Some "timeout") (Some [range]) (Some "60") in
  let p := Program.option d Program.new in
  let res := mkParserResult [] [] [] in
  WellFormed p /\ Registered p d /\
  actionCount 1 (calls (parse p res)) = 1 /\
  In (OptionAction 1 (VString "60")) (calls (parse p res)) /\
  forall input, ~ In (Validation 1 input) (calls (parse p res)).
Proof.
  intros range d p res.
  assert (Hwf : WellFormed p).
  { apply WellFormed_option; [intros d' [] | apply WellFormed_new]. }
  assert (Hreg : Registered p d) by (left; reflexivity).
  split; [exact Hwf | split; [exact Hreg|]].
  apply (default_value_action p res d "60" Hwf Hreg eq_refl).
  - exists false. reflexivity.
  - intros k _ [].
Defined.

(** C5 as stated fails when a validator of another, supplied option
    throws: the declaration [2] is registered with a default value and
    none of its names is supplied, yet its action is never called. *)
Lemma default_skipped_after_throw :
  let boom := mkValidator (fun _ => Throws "boom") "never shown" in
  let a := mkArgOptions 1 (Some "a") None (Some [boom]) None in
  let t := mkArgOptions 2 (Some "t") (Some "timeout") None (Some "60") in
  let p := Program.option t (Program.option a Program.new) in
  let res := Parser.tokenize ["node"; "cli"; "-a"; "x"] in
  Registered p t /\
  defaultValue t = Some "60" /\
  JsObject.keys (Types.options res) = ["a"] /\
  actionCount 2 (calls (parse p res)) = 0 /\
  settled (parse p res) = Abrupt "boom".
Proof.
  intros boom a t p res. split; [right; left; reflexivity|].
  repeat split; reflexivity.
Qed.

(** *** A validation failure *)

Lemma Book_continueAll pre r r1 : continueAll pre r = Some r1 -> Book r -> Book r1.
Proof.
  revert r. induction pre as [|[key value] pre IH]; simpl; intros r H HB.
  - now injection H as <-.
  - pose proof (Book_processEntry key value r HB) as H'.
    destruct (processEntry key value r); try discriminate. eauto.
Qed.

Lemma Reaches_Book p res key value post r1 : Reaches p res key value post r1 -> Book r1.
Proof. intros (pre & _ & H). eapply Book_continueAll; eauto using Book_afterCommand. Qed.

Lemma Reaches_key p res key value post r1 :
  Reaches p res key value post r1 ->
  In key (JsObject.keys (Types.options res)) /\
  forall k v, In (k, v) post -> In k (JsObject.keys (Types.options res)).
Proof.
  intros (pre & -> & _). unfold JsObject.keys. rewrite map_app. simpl. split.
  - apply in_or_app. right. now left.
  - intros k v H. apply in_or_app. right. right.
    change k with (fst (k, v)). now apply in_map.
Qed.

(** The option at which the loop is, fails validation: the body of the
    loop ends in the [break]. *)
Definition FailsAt (key : string) (value : OptionValue) (r1 r2 : Run) : Prop :=
  processEntry key value r1 = Break r2.

Lemma FailsAt_afterOptions p res key value post r1 r2 :
  Reaches p res key value post r1 -> FailsAt key value r1 r2 ->
  optionLoop (Types.options res) (afterCommand p res) = (r2, None).
Proof.
  intros Hr Hf. rewrite (Reaches_optionLoop _ _ _ _ _ _ Hr). simpl.
  unfold FailsAt in Hf. now rewrite Hf.
Qed.

(** After a validation failure of a supplied option A: no action is
    called for a declaration that is first met after A among the parsed
    options; and, provided the parsed options have no key
    [hasOwnProperty], every registered declaration with a default value
    and no supplied name has its action called with the default by the
    default-value loop. *)
Theorem failure_stops_options_not_defaults
  (p : State) (res : ParserResult) (keyA : string) (valueA : OptionValue)
  (post : list (string * OptionValue)) (r1 r2 : Run)
  (Hwf : WellFormed p)
  (Hreach : Reaches p res keyA valueA post r1)
  (Hfail : FailsAt keyA valueA r1 r2) :
  (forall k v d, In (k, v) post -> JsMap.get (options p) k = Some d ->
                 includes (processedOptions r2) d = false ->
                 forall v', ~ In (OptionAction (oid d) v') (calls (parse p res)))
  /\
  (JsObject.hasOwn (Types.options res) "hasOwnProperty" = false ->
   forall d dv, Registered p d -> defaultValue d = Some dv ->
     (forall k, hasKey d k = true -> ~ In k (JsObject.keys (Types.options res))) ->
     In (OptionAction (oid d) (VString dv)) (defaultCalls p res)).
Proof.
  pose proof (FailsAt_afterOptions _ _ _ _ _ _ _ Hreach Hfail) as Hloop.
  assert (Hafter : afterOptions p res = r2) by (unfold afterOptions; now rewrite Hloop).
  destruct (calls_split p res) as [Hsplit Hf]. rewrite Hafter in Hsplit. split.
  - intros k v d Hin Hget Hinc v' Hcall. rewrite Hsplit in Hcall.
    apply in_app_or in Hcall as [Hcall|Hcall].
    + revert Hcall. apply Book_not_called; [|exact Hinc].
      rewrite <- Hafter. apply Book_afterOptions.
    + revert Hcall. apply (defaultCalls_not_supplied p res d k); auto.
      * eapply get_In_values; eauto.
      * eapply (wf_keys p Hwf); eauto.
      * eapply Reaches_key; eauto.
  - intros Hplain d dv Hreg Hdv Habs.
    pose proof (default_called p res d dv Hwf Hreg Hdv Habs
                  (defaultLoop_unshadowed _ _ _ Hplain)) as Hin.
    rewrite <- parse_calls_default, Hsplit in Hin by now rewrite Hloop. apply in_app_or in Hin as [Hin|Hin]; [|exact Hin].
    destruct (afterOptions_untouched p res d Hwf Hreg Habs) as [_ Hno].
    rewrite Hafter in Hno. now elim (Hno _ Hin).
Qed.

Lemma failure_stops_options_not_defaults_witness :
  let bad := mkValidator (fun _ => Returns false) "bad value" in
  let a := mkArgOptions 1 (Some "a") None (Some [bad]) None in
  let b := mkArgOptions 2 (Some "b") None None None in
  let t := mkArgOptions 3 (Some "t") (Some "timeout") None (Some "60") in
  let p := Program.option t (Program.option b (Program.option a Program.new)) in
  let res := Parser.tokenize ["node"; "cli"; "-a"; "x"; "-b"] in
  (forall v, ~ In (OptionAction 2 v) (calls (parse p res))) /\
  In (OptionAction 3 (VString "60")) (defaultCalls p res).
Proof.
  intros bad a b t p res.
  assert (Hwf : WellFormed p).
  { repeat apply WellFormed_option; try apply WellFormed_new.
    - intros d' [<-|[<-|[]]]; discriminate.
    - intros d' [<-|[]]; discriminate.
    - intros d' []. }
  assert (Hreach : Reaches p res "a" (VString "x") [("b", VBool true)] (afterCommand p res)).
  { exists []. split; reflexivity. }
  destruct (failure_stops_options_not_defaults p res "a" (VString "x")
              [("b", VBool true)] (afterCommand p res) _ Hwf Hreach eq_refl)
    as [Hstop Hdefault].
  split.
  - apply (Hstop "b" (VBool true) b); [now left | reflexivity | reflexivity].
  - apply (Hdefault eq_refl t "60"); [right; right; left; reflexivity | reflexivity |].
    intros k Hk [<-|[<-|[]]]; discriminate.
Defined.

(** C3 at the input [--hasOwnProperty -a x].  The option [a] fails
    validation, the declaration [2] has a default value and none of its
    names is supplied; the default-value loop is cut short by the call
    of [options.hasOwnProperty], which the parsed key shadows: the action
    of [2] is not called and the promise of [parse] rejects. *)
Theorem shadowed_hasOwnProperty_skips_defaults :
  let bad := mkValidator (fun _ => Returns false) "bad value" in
  let a := mkArgOptions 1 (Some "a") None (Some [bad]) None in
  let t := mkArgOptions 2 (Some "t") (Some "timeout") None (Some "60") in
  let p := Program.option t (Program.option a Program.new) in
  let res := Parser.tokenize ["node"; "cli"; "--hasOwnProperty"; "-a"; "x"] in
  Types.options res = [("hasOwnProperty", VBool true); ("a", VString "x")] /\
  getValidationErrors (final (parse p res)) = [("a", "bad value")] /\
  calls (parse p res) = [Validation 1 (InString "x")] /\
  settled (parse p res)
  = Abrupt "TypeError: options.hasOwnProperty is not a function".
Proof. repeat split; reflexivity. Qed.

(** *** Validators without a message, validators that throw *)

(** C1, amended.  For an option met by the loop whose validators all
    settle and include one that evaluates to a falsy value with an empty
    message: the option is treated as failed exactly when some validator
    evaluates to a falsy value and has a non-empty message.  Then the
    loop stops with the joined messages recorded and the action is not
    called in the cycle; otherwise (every falsy validator has an empty
    message) the action is called with the value and the loop goes on
    with the following options. *)
Theorem empty_message_is_no_failure
  (p : State) (res : ParserResult) (key : string) (value : OptionValue)
  (post : list (string * OptionValue)) (r1 : Run) (d : ArgOptions)
  (vs : list Validator) (silent : Validator)
  (Hwf : WellFormed p)
  (Hreach : Reaches p res key value post r1)
  (Hget : JsMap.get (options p) key = Some d)
  (Hnew : includes (processedOptions r1) d = false)
  (Hvs : validators d = Some vs)
  (Hsettle : Forall (Settles (validatorInput value)) vs)
  (Hsilent : In silent vs /\ isFalsy (validatorInput value) silent = true /\
             message silent = "") :
  let r' := emit (Validation (oid d) (validatorInput value)) (pushProcessed d r1) in
  if existsb (failsWithText (validatorInput value)) vs
  then
    optionLoop (Types.options res) (afterCommand p res)
    = (setValidationError key
         (join (String "010" "") (failedMessages (validatorInput value) vs)) r', None) /\
    forall v, ~ In (OptionAction (oid d) v) (calls (parse p res))
  else
    optionLoop (Types.options res) (afterCommand p res)
    = optionLoop post (emit (OptionAction (oid d) value) r') /\
    In (OptionAction (oid d) value) (calls (parse p res)).
Proof.
  intros r'. pose proof (Reaches_optionLoop _ _ _ _ _ _ Hreach) as Hloop.
  destruct (Reaches_keeps _ _ _ _ _ _ Hreach) as [Ho _].
  pose proof (processEntry_validated key value r1 d vs) as Hstep.
  rewrite Ho in Hstep. specialize (Hstep Hget Hnew Hvs Hsettle). cbv zeta in Hstep.
  fold r' in Hstep. simpl in Hloop. rewrite Hstep in Hloop.
  destruct (existsb _ vs).
  - split; [exact Hloop|]. intros v Hcall.
    destruct (calls_split p res) as [Hsplit _]. rewrite Hsplit in Hcall.
    unfold afterOptions in Hcall. rewrite Hloop in Hcall. simpl in Hcall.
    rewrite <- app_assoc in Hcall. apply in_app_or in Hcall as [Hcall|Hcall].
    + revert Hcall. apply Book_not_called; [|exact Hnew].
      eapply Reaches_Book; eauto.
    + apply in_app_or in Hcall as [[Hcall|[]]|Hcall]; [discriminate|].
      revert Hcall.
      exact (defaultCalls_not_supplied p res d key Hwf
               (get_In_values _ _ _ Hget) (wf_keys p Hwf _ _ Hget)
               (proj1 (Reaches_key _ _ _ _ _ _ Hreach)) v).
  - split; [exact Hloop|].
    destruct (parse_lastRun p res) as [_ ->].
    apply (Grows_trace_incl (afterOptions p res)).
    + pose proof (Grows_lastRun p res) as H. unfold lastRun, afterOptions in *.
      destruct (optionLoop (Types.options res) (afterCommand p res)) as [r [e|]];
        simpl; [apply Grows_refl | apply Grows_defaultLoop].
    + unfold afterOptions. rewrite Hloop.
      apply (Grows_trace_incl (emit (OptionAction (oid d) value) r'));
        [apply Grows_optionLoop|].
      simpl. apply in_or_app. right. now left.
Qed.

Lemma empty_message_is_no_failure_witness :
  let silent := mkValidator (fun _ => Returns false) "" in
  let d := mkArgOptions 1 (Some "o") (Some "opt") (Some [silent]) None in
  let p := Program.option d Program.new in
  let res := mkParserResult [("o", VString "bad")] [] [] in
  WellFormed p /\ In (OptionAction 1 (VString "bad")) (calls (parse p res)).
Proof.
  intros silent d p res.
  assert (Hwf : WellFormed p).
  { apply WellFormed_option; [intros d' [] | apply WellFormed_new]. }
  split; [exact Hwf|].
  assert (Hreach : Reaches p res "o" (VString "bad") [] (afterCommand p res)).
  { exists []. split; reflexivity. }
  assert (Hsettle : Forall (Settles (InString "bad")) [silent]).
  { constructor; [exists false; reflexivity | constructor]. }
  exact (proj2 (empty_message_is_no_failure p res "o" (VString "bad") []
                  (afterCommand p res) d [silent] silent Hwf Hreach eq_refl eq_refl
                  eq_refl Hsettle (conj (or_introl eq_refl) (conj eq_refl eq_refl)))).
Defined.

(** C1 as stated fails: the only validator of [o] evaluates to a falsy
    value and has an empty message; the action of [o] is called with the
    value, the next option is processed, and no validation error is
    recorded. *)
Lemma empty_message_counterexample :
  let silent := mkValidator (fun _ => Returns false) "" in
  let d := mkArgOptions 1 (Some "o") (Some "opt") (Some [silent]) None in
  let n := mkArgOptions 2 (Some "n") None None None in
  let p := Program.option n (Program.option d Program.new) in
  let res := Parser.tokenize ["node"; "cli"; "-o"; "bad"; "-n"] in
  Types.options res = [("o", VString "bad"); ("n", VBool true)] /\
  isFalsy (InString "bad") silent = true /\
  message silent = "" /\
  calls (parse p res)
  = [Validation 1 (InString "bad"); OptionAction 1 (VString "bad");
     OptionAction 2 (VBool true)] /\
  getValidationErrors (final (parse p res)) = [] /\
  settled (parse p res) = Normal false.
Proof. repeat split; reflexivity. Qed.

(** C2, amended.  When the loop meets an option one of whose validators
    throws or rejects (those before it having settled), the dispatch
    does not complete: the promise of [parse] rejects with the reason of
    the validator.  No validation error is recorded, the action of the
    option is not called, and nothing is called afterwards: neither the
    following options nor the default values are processed. *)
Theorem validator_rejection_propagates
  (p : State) (res : ParserResult) (key : string) (value : OptionValue)
  (post : list (string * OptionValue)) (r1 : Run) (d : ArgOptions)
  (vs1 vs2 : list Validator) (v : Validator) (e : string)
  (Hreach : Reaches p res key value post r1)
  (Hget : JsMap.get (options p) key = Some d)
  (Hnew : includes (processedOptions r1) d = false)
  (Hvs : validators d = Some (vs1 ++ v :: vs2))
  (Hsettle : Forall (Settles (validatorInput value)) vs1)
  (Hthrow : settle (validate v (validatorInput value)) = Abrupt e) :
  settled (parse p res) = Abrupt e /\
  calls (parse p res) = trace r1 ++ [Validation (oid d) (validatorInput value)] /\
  getValidationErrors (final (parse p res)) = getValidationErrors p /\
  forall x, ~ In (OptionAction (oid d) x) (calls (parse p res)).
Proof.
  pose proof (Reaches_optionLoop _ _ _ _ _ _ Hreach) as Hloop.
  destruct (Reaches_keeps _ _ _ _ _ _ Hreach) as [Ho Hve].
  assert (Hstep : processEntry key value r1
                  = Throw (emit (Validation (oid d) (validatorInput value))
                                (pushProcessed d r1)) e).
  { unfold processEntry. rewrite Ho, Hget, Hnew, Hvs. unfold runValidators.
    now rewrite (runValidatorsFrom_abrupt _ _ _ _ e [] Hsettle Hthrow). }
  simpl in Hloop. rewrite Hstep in Hloop.
  assert (Hparse : parse p res
                   = finish (emit (Validation (oid d) (validatorInput value))
                                  (pushProcessed d r1)) (Abrupt e)).
  { unfold parse. fold (afterCommand p res). now rewrite Hloop. }
  rewrite Hparse. simpl. repeat split; [exact Hve|].
  intros x Hcall. apply in_app_or in Hcall as [Hcall|[Hcall|[]]]; [|discriminate].
  revert Hcall. apply Book_not_called; [|exact Hnew]. eapply Reaches_Book; eauto.
Qed.

Lemma validator_rejection_propagates_witness :
  let ok := mkValidator (fun _ => Resolves true) "not shown" in
  let boom := mkValidator (fun _ => Rejects "boom") "never shown" in
  let d := mkArgOptions 1 (Some "o") (Some "opt") (Some [ok; boom]) None in
  let t := mkArgOptions 2 (Some "t") None None (Some "60") in
  let p := Program.option t (Program.option d Program.new) in
  let res := mkParserResult [("o", VString "x")] [] [] in
  settled (parse p res) = Abrupt "boom" /\
  calls (parse p res) = [Validation 1 (InString "x")].
Proof.
  intros ok boom d t p res.
  assert (Hreach : Reaches p res "o" (VString "x") [] (afterCommand p res)).
  { exists []. split; reflexivity. }
  assert (Hsettle : Forall (Settles (InString "x")) [ok]).
  { constructor; [exists true; reflexivity | constructor]. }
  destruct (validator_rejection_propagates p res "o" (VString "x") []
              (afterCommand p res) d [ok] [] boom "boom" Hreach eq_refl eq_refl
              eq_refl Hsettle eq_refl) as (H1 & H2 & _).
  split; [exact H1 | exact H2].
Defined.

(** C2 as stated fails: the validator of [o] throws; the dispatch does
    not complete normally (the promise of [parse] rejects with the
    reason) and no validation error is recorded for the option. *)
Lemma validator_throw_counterexample :
  let boom := mkValidator (fun _ => Throws "boom") "never shown" in
  let d := mkArgOptions 1 (Some "o") (Some "opt") (Some [boom]) None in
  let p := Program.option d Program.new in
  let res := Parser.tokenize ["node"; "cli"; "-o"; "x"] in
  Types.options res = [("o", VString "x")] /\
  settled (parse p res) = Abrupt "boom" /\
  getValidationErrors (final (parse p res)) = [] /\
  (forall b, settled (parse p res) <> Normal b).
Proof. repeat split; try reflexivity. intros b. discriminate. Qed.

(** *** The cases of the test suite of the dispatcher *)

Example test_known_command_and_option :
  let p := Program.option (mkArgOptions 1 (Some "f") (Some "file") None None)
             (Program.command (mkCommandOptions 7 "run") Program.new) in
  let out := parse p (mkParserResult [("f", VString "test.txt")] ["run"; "subcmd"] []) in
  calls out = [CommandAction 7 ["subcmd"]; OptionAction 1 (VString "test.txt")] /\
  settled out = Normal false /\
  getParsingErrors (final out) = [] /\ getUnexpectedErrors (final out) = [] /\
  getValidationErrors (final out) = [].
Proof. repeat split; reflexivity. Qed.

Example test_unknown_command_and_option :
  let p := Program.command (mkCommandOptions 7 "cmd") Program.new in
  getUnexpectedErrors (final (parse p (mkParserResult [] ["unknown"; "x"] []))) = ["unknown x"] /\
  getUnexpectedErrors (final (parse p (mkParserResult [("unknown", VBool true)] ["cmd"] [])))
  = ["unknown"].
Proof. split; reflexivity. Qed.

Example test_validation_error :
  let invalid := mkValidator (fun _ => Returns false) "Invalid value" in
  let other := mkValidator (fun _ => Resolves false) "Too short" in
  let p := Program.option (mkArgOptions 1 (Some "o") (Some "opt") (Some [invalid; other]) None)
             (Program.command (mkCommandOptions 7 "cmd") Program.new) in
  let out := parse p (mkParserResult [("o", VString "badvalue")] ["cmd"] []) in
  settled out = Normal true /\
  getValidationErrors (final out)
  = [("o", ("Invalid value" ++ String "010" "" ++ "Too short")%string)] /\
  calls out = [CommandAction 7 []; Validation 1 (InString "badvalue")].
Proof. repeat split; reflexivity. Qed.

Example test_boolean_value_validated_as_empty_string :
  let nonEmpty := mkValidator
                    (fun i => match i with InString "" => Returns false | _ => Returns true end)
                    "empty" in
  let p := Program.option (mkArgOptions 1 (Some "b") (Some "bool") (Some [nonEmpty]) None)
             Program.new in
  calls (parse p (mkParserResult [("b", VBool true)] [] []))
  = [Validation 1 (InString "")].
Proof. reflexivity. Qed.

Example test_default_not_used_when_provided :
  let p := Program.option (mkArgOptions 1 (Some "d") (Some "default") None (Some "defaultVal"))
             (Program.command (mkCommandOptions 7 "cmd") Program.new) in
  calls (parse p (mkParserResult [("d", VString "providedVal")] ["cmd"] []))
  = [CommandAction 7 []; OptionAction 1 (VString "providedVal")] /\
  calls (parse p (mkParserResult [("d", VString "")] ["cmd"] []))
  = [CommandAction 7 []; OptionAction 1 (VString "")] /\
  calls (parse p (mkParserResult [] ["cmd"] []))
  = [CommandAction 7 []; OptionAction 1 (VString "defaultVal")].
Proof. repeat split; reflexivity. Qed.

End ProgramFacts.

(** * Further properties of the tokenizer *)

Module TokenizerProperties.
Import Parser ParserFacts.

(** *** Strings built from a key and a value *)

Lemma nameChar_not_equals c : isNameChar c = true -> Ascii.eqb c "=" = false.
Proof.
  intros H. destruct (Ascii.eqb c "=") eqn:E; [|reflexivity].
  apply Ascii.eqb_eq in E. subst. discriminate.
Qed.

Lemma alnum_nameChar c : isAlnum c = true -> isNameChar c = true.
Proof. intros H. unfold isNameChar. now rewrite H. Qed.

Lemma validName_chars key : isValidName key = true -> allChars isNameChar key = true.
Proof.
  destruct key as [|c r]; [discriminate|]. simpl.
  intros [H1 H2]%andb_true_iff. now rewrite (alnum_nameChar _ H1).
Qed.

Lemma splitHead_append key s :
  allChars isNameChar key = true -> splitHead "=" (key ++ String "=" s) = key.
Proof.
  induction key as [|c r IH]; simpl; [reflexivity|].
  intros [H1 H2]%andb_true_iff. rewrite (nameChar_not_equals _ H1). now rewrite IH.
Qed.

Lemma splitHead_name key : allChars isNameChar key = true -> splitHead "=" key = key.
Proof.
  induction key as [|c r IH]; simpl; [reflexivity|].
  intros [H1 H2]%andb_true_iff. rewrite (nameChar_not_equals _ H1). now rewrite IH.
Qed.

Lemma indexOf_append key s :
  allChars isNameChar key = true ->
  indexOf "=" (key ++ String "=" s) = Some (String.length key).
Proof.
  induction key as [|c r IH]; simpl; [reflexivity|].
  intros [H1 H2]%andb_true_iff. rewrite (nameChar_not_equals _ H1). now rewrite IH.
Qed.

Lemma indexOf_name key : allChars isNameChar key = true -> indexOf "=" key = None.
Proof.
  induction key as [|c r IH]; simpl; [reflexivity|].
  intros [H1 H2]%andb_true_iff. rewrite (nameChar_not_equals _ H1). now rewrite IH.
Qed.

Lemma sliceTo_append key s : sliceTo (String.length key) (key ++ s) = key.
Proof. induction key as [|c r IH]; simpl; [now destruct s | now rewrite IH]. Qed.

Lemma sliceFrom_append key s : sliceFrom (String.length key) (key ++ s) = s.
Proof. induction key as [|c r IH]; simpl; [reflexivity | exact IH]. Qed.

Lemma sliceFrom_after key c s : sliceFrom (S (String.length key)) (key ++ String c s) = s.
Proof. induction key as [|a r IH]; simpl; [now destruct s | exact IH]. Qed.

Lemma startsWith_long s : startsWith ("--" ++ s) "--" = true.
Proof. now destruct s. Qed.

Lemma startsWith_dash s : startsWith ("-" ++ s) "-" = true.
Proof. now destruct s. Qed.

Lemma sliceFrom_long s : sliceFrom 2 ("--" ++ s) = s.
Proof. reflexivity. Qed.

Lemma sliceFrom_short s : sliceFrom 1 ("-" ++ s) = s.
Proof. reflexivity. Qed.

Lemma collectValues_app vals rest :
  Forall (fun a => notDash a = true) vals ->
  match rest with [] => True | a :: _ => startsWith a "-" = true end ->
  collectValues (vals ++ rest) = (vals, rest).
Proof.
  intros Hv Hr. induction Hv as [|a vals Ha _ IH]; cbn [app collectValues].
  - destruct rest as [|a rest]; [reflexivity|]. cbn [collectValues].
    unfold notDash. now rewrite Hr.
  - now rewrite Ha, IH.
Qed.

(** X1.  [--key=value] binds the key to exactly the string after the
    first [=] (empty, with further [=], or dash-prefixed as it may be) and
    takes none of the following arguments. *)
Theorem long_equals_assigns (key value : string) (rest : list string) (st : State)
  (Hlen : 1 < String.length key) (Hname : isValidName key = true) :
  optionLoop (("--" ++ key ++ String "=" value)%string :: rest) st
  = optionLoop rest (setOption key (VString value) st).
Proof.
  pose proof (validName_chars _ Hname) as Hc.
  simp optionLoop. rewrite startsWith_long. cbv zeta.
  rewrite sliceFrom_long, (splitHead_append _ _ Hc), Hname.
  apply Nat.ltb_lt in Hlen. rewrite Hlen. cbn [andb].
  unfold parseLongArg. rewrite sliceFrom_long, (indexOf_append _ _ Hc). cbn [fst snd].
  rewrite sliceTo_append.
  replace (String.length key + 1) with (S (String.length key)) by lia.
  now rewrite sliceFrom_after.
Qed.

Lemma long_equals_assigns_witness :
  optionLoop ["--mode=a=b"; "x"] init
  = optionLoop ["x"] (setOption "mode" (VString "a=b") init).
Proof. exact (long_equals_assigns "mode" "a=b" ["x"] init ltac:(simpl; lia) eq_refl). Defined.

(** X2.  A long option without [=] takes all the arguments that follow it
    up to the next dash-prefixed one (or the end): none gives [true], one
    gives that string, several give the array; the scan resumes at the
    dash-prefixed argument. *)
Theorem long_collects_values (key : string) (vals rest : list string) (st : State)
  (Hlen : 1 < String.length key) (Hname : isValidName key = true)
  (Hvals : Forall (fun a => startsWith a "-" = false) vals)
  (Hrest : match rest with [] => True | a :: _ => startsWith a "-" = true end) :
  optionLoop (("--" ++ key)%string :: vals ++ rest) st
  = optionLoop rest (setOption key (valueOf vals) st).
Proof.
  pose proof (validName_chars _ Hname) as Hc.
  assert (Hv : Forall (fun a => notDash a = true) vals).
  { eapply Forall_impl; [|exact Hvals]. intros a Ha. unfold notDash. now rewrite Ha. }
  simp optionLoop. rewrite startsWith_long. cbv zeta.
  rewrite sliceFrom_long, (splitHead_name _ Hc), Hname.
  apply Nat.ltb_lt in Hlen. rewrite Hlen. cbn [andb].
  unfold parseLongArg. rewrite sliceFrom_long, (indexOf_name _ Hc).
  now rewrite (collectValues_app _ _ Hv Hrest).
Qed.

Lemma long_collects_values_witness :
  optionLoop ["--include"; "src"; "tests"; "-v"] init
  = optionLoop ["-v"] (setOption "include" (VArray ["src"; "tests"]) init).
Proof.
  apply (long_collects_values "include" ["src"; "tests"] ["-v"] init);
    [simpl; lia | reflexivity | repeat constructor | reflexivity].
Defined.

Lemma short_not_long c r : isValidName (String c r) = true ->
  startsWith ("-" ++ String c r) "--" = false.
Proof.
  intros Hname. cbn [isValidName] in Hname. apply andb_true_iff in Hname as [H _].
  unfold startsWith. change ("-" ++ String c r)%string with (String "-" (String c r)).
  cbn [prefix]. destruct (ascii_dec "-" "-") as [_|n]; [|now elim n].
  destruct (ascii_dec "-" c) as [<-|]; [discriminate H | reflexivity].
Qed.

(** X3.  A short token [-abc]: every character but the last is bound to
    [true], in order, and the last one takes the arguments that follow up
    to the next dash-prefixed one; a single flag [-f] is the case without
    leading characters. *)
Theorem short_flags_assign (c : ascii) (r : string) (vals rest : list string) (st : State)
  (Hname : isValidName (String c r) = true)
  (Hvals : Forall (fun a => startsWith a "-" = false) vals)
  (Hrest : match rest with [] => True | a :: _ => startsWith a "-" = true end) :
  optionLoop (("-" ++ String c r)%string :: vals ++ rest) st
  = optionLoop rest
      (setOption (ofChar (lastChar c r)) (valueOf vals) (setFlags (initChars c r) st)).
Proof.
  assert (Hv : Forall (fun a => notDash a = true) vals).
  { eapply Forall_impl; [|exact Hvals]. intros a Ha. unfold notDash. now rewrite Ha. }
  simp optionLoop. rewrite (short_not_long _ _ Hname), startsWith_dash, sliceFrom_short, Hname.
  change (1 <? String.length ("-" ++ String c r)) with true. cbn [andb].
  unfold parseShortArg. rewrite sliceFrom_short, (collectValues_app _ _ Hv Hrest).
  destruct r as [|b r]; reflexivity.
Qed.

Lemma short_flags_assign_witness :
  optionLoop ["-xyz"; "val1"; "val2"] init
  = optionLoop [] (setOption "z" (VArray ["val1"; "val2"])
                     (setOption "y" (VBool true) (setOption "x" (VBool true) init))).
Proof.
  apply (short_flags_assign "x" "yz" ["val1"; "val2"] [] init);
    [reflexivity | repeat constructor | exact I].
Defined.

(** *** Tokens the loop accepts and tokens it rejects *)

(** The test the loop makes on a dash-prefixed argument. *)
Definition accepted (t : string) : bool :=
  if startsWith t "--"
  then (1 <? String.length (splitHead "=" (sliceFrom 2 t)))
       && isValidName (splitHead "=" (sliceFrom 2 t))
  else (1 <? String.length t) && isValidName (sliceFrom 1 t).

Lemma optionLoop_rejected t rest st :
  startsWith t "-" = true -> accepted t = false ->
  optionLoop (t :: rest) st = optionLoop rest (pushError t st).
Proof.
  intros Hd Ha. simp optionLoop. unfold accepted in Ha. cbv zeta.
  destruct (startsWith t "--"); rewrite ?Hd, Ha; reflexivity.
Qed.

Lemma optionLoop_bare a rest st :
  startsWith a "-" = false -> optionLoop (a :: rest) st = optionLoop rest (pushError a st).
Proof.
  intros Ha. simp optionLoop.
  assert (H2 : startsWith a "--" = false).
  { unfold startsWith in *. destruct a as [|c a]; [reflexivity|]. cbn [prefix] in *.
    destruct (ascii_dec "-" c); [destruct a; discriminate Ha | reflexivity]. }
  now rewrite H2, Ha.
Qed.

(** X4.  After a rejected dash-prefixed argument, the arguments that
    follow it up to the next dash-prefixed one are not values of anything:
    each is reported as a parsing error, after the rejected one and in
    order. *)
Theorem stray_values_are_errors (t : string) (vals rest : list string) (st : State)
  (Hdash : startsWith t "-" = true) (Hrej : accepted t = false)
  (Hvals : Forall (fun a => startsWith a "-" = false) vals) :
  optionLoop (t :: vals ++ rest) st
  = optionLoop rest
      (mkState (parsedOptions st) (parsedCommands st) (parsingErrors st ++ t :: vals)).
Proof.
  rewrite (optionLoop_rejected _ _ _ Hdash Hrej).
  assert (H : forall errs,
             optionLoop (vals ++ rest) (mkState (parsedOptions st) (parsedCommands st) errs)
             = optionLoop rest
                 (mkState (parsedOptions st) (parsedCommands st) (errs ++ vals))).
  { induction Hvals as [|a vals Ha _ IH]; intros errs; simpl.
    - now rewrite app_nil_r.
    - rewrite (optionLoop_bare _ _ _ Ha). unfold pushError. simpl.
      rewrite IH, <- app_assoc. reflexivity. }
  unfold pushError. rewrite H, <- app_assoc. reflexivity.
Qed.

Lemma stray_values_are_errors_witness :
  parsingErrors (optionLoop ["--d"; "5"; "6"; "--ok"] init) = ["--d"; "5"; "6"].
Proof.
  pose proof (stray_values_are_errors "--d" ["5"; "6"] ["--ok"] init eq_refl eq_refl
                ltac:(repeat constructor)) as H.
  cbn [app] in H. rewrite H. reflexivity.
Defined.

Section DashToken.
Variable t : string.
Hypothesis Hdash : startsWith t "-" = true.

Lemma accepted_long arg :
  startsWith arg "--" = true ->
  (1 <? String.length (splitHead "=" (sliceFrom 2 arg)))
  && isValidName (splitHead "=" (sliceFrom 2 arg)) = accepted arg.
Proof. intros H. unfold accepted. now rewrite H. Qed.

Lemma accepted_short arg :
  startsWith arg "--" = false ->
  (1 <? String.length arg) && isValidName (sliceFrom 1 arg) = accepted arg.
Proof. intros H. unfold accepted. now rewrite H. Qed.

Lemma optionLoop_dash_count l st :
  count_occ string_dec (parsingErrors (optionLoop l st)) t
  = count_occ string_dec (parsingErrors st) t
    + (if accepted t then 0 else count_occ string_dec l t).
Proof.
  funelim (optionLoop l st); [simpl; destruct (accepted t); lia|].
  clear Heqcall.
  destruct (startsWith arg "--") eqn:E2;
    [rewrite (accepted_long _ E2); destruct (accepted arg) eqn:Ea
    |destruct (startsWith arg "-") eqn:E1;
     [rewrite (accepted_short _ E2); destruct (accepted arg) eqn:Ea|]].
  - rewrite H, parseLongArg_errors, parseLongArg_count by assumption.
    simpl. destruct (string_dec arg t) as [->|]; [now rewrite Ea | reflexivity].
  - rewrite H1, count_pushError. simpl.
    destruct (string_dec arg t) as [->|]; [rewrite Ea|destruct (accepted t)]; lia.
  - rewrite H0, parseShortArg_errors, parseShortArg_count by assumption.
    simpl. destruct (string_dec arg t) as [->|]; [now rewrite Ea | reflexivity].
  - rewrite H1, count_pushError. simpl.
    destruct (string_dec arg t) as [->|]; [rewrite Ea|destruct (accepted t)]; lia.
  - rewrite H1, count_pushError. simpl.
    destruct (string_dec arg t) as [->|]; [congruence|]. destruct (accepted t); lia.
Qed.

Lemma optionLoop_reaches_dash l st :
  forall pre post, l = pre ++ t :: post ->
  exists st', optionLoop l st = optionLoop (t :: post) st'.
Proof.
  funelim (optionLoop l st); intros pre post Hl.
  - now destruct pre.
  - destruct pre as [|a pre]; simpl in Hl; inversion Hl; subst.
    + exists st. now rewrite Heqcall.
    + clear Heqcall.
      destruct (parseLongArg_reaches t Hdash a pre post st) as [p1 H1'].
      destruct (parseShortArg_reaches t Hdash a pre post st) as [p2 H2'].
      repeat match goal with
             | |- context [if ?b then _ else _] => destruct b
             end; eauto.
Qed.

Lemma parse_reaches_dash pre post :
  exists st, parse (pre ++ t :: post) = optionLoop (t :: post) st.
Proof.
  unfold parse.
  assert (H : forall st, exists pre', snd (commandLoop (pre ++ t :: post) st)
                                      = pre' ++ t :: post).
  { induction pre as [|a pre IH]; intros st; simpl.
    - unfold notDash. rewrite Hdash. simpl. now exists [].
    - destruct (notDash a); [apply IH | now exists (a :: pre)]. }
  destruct (H init) as [pre' Hp]. destruct (commandLoop _ init) as [st rest].
  simpl in Hp. eapply optionLoop_reaches_dash; eassumption.
Qed.

End DashToken.

(** X5.  A dash-prefixed argument is among the parsing errors exactly as
    the loop judges it: never when it is accepted as an option, and as
    many times as it occurs among the arguments when it is rejected
    (which includes a long option whose key has one character, such as
    [--d] or [--d=5]). *)
Theorem dash_token_errors (args : list string) (t : string)
  (Hdash : startsWith t "-" = true) :
  count_occ string_dec (Types.errors (getResult (parse args))) t
  = if accepted t then 0 else count_occ string_dec args t.
Proof.
  simpl. unfold parse. destruct (commandLoop_count t Hdash args init) as [He Hc].
  destruct (commandLoop args init) as [st rest]. simpl in *.
  rewrite (optionLoop_dash_count t Hdash), He, Hc. reflexivity.
Qed.

Lemma dash_token_errors_witness :
  let args := ["run"; "--d=5"; "--depth=5"; "-x"; "--d=5"] in
  count_occ string_dec (Types.errors (getResult (parse args))) "--d=5" = 2 /\
  count_occ string_dec (Types.errors (getResult (parse args))) "--depth=5" = 0.
Proof.
  intros args. split.
  - exact (dash_token_errors args "--d=5" eq_refl).
  - exact (dash_token_errors args "--depth=5" eq_refl).
Defined.

(** *** Commands *)

Lemma commandLoop_prefix l st :
  exists cmds rest,
    l = cmds ++ rest /\
    commandLoop l st
    = (mkState (parsedOptions st) (parsedCommands st ++ cmds) (parsingErrors st), rest) /\
    Forall (fun a => startsWith a "-" = false) cmds /\
    match rest with [] => True | a :: _ => startsWith a "-" = true end.
Proof.
  revert st. induction l as [|a l IH]; intros st.
  - exists [], []. simpl. rewrite app_nil_r. destruct st; auto.
  - simpl. destruct (notDash a) eqn:E.
    + destruct (IH (pushCommand a st)) as (cmds & rest & -> & Hc & Hf & Hr).
      exists (a :: cmds), rest. rewrite Hc. simpl. rewrite <- app_assoc.
      repeat split; auto. constructor; [|exact Hf].
      unfold notDash in E. now destruct (startsWith a "-").
    + exists [], (a :: l). simpl. rewrite app_nil_r. destruct st. repeat split; auto.
      unfold notDash in E. now destruct (startsWith a "-").
Qed.

Lemma optionLoop_commands l st : parsedCommands (optionLoop l st) = parsedCommands st.
Proof.
  apply (optionLoop_preserves (fun s => parsedCommands s = parsedCommands st)); auto.
Qed.

Definition withCommands (cmds : list string) (st : State) : State :=
  mkState (parsedOptions st) cmds (parsingErrors st).

Lemma setFlags_withCommands cmds cs st :
  setFlags cs (withCommands cmds st) = withCommands cmds (setFlags cs st).
Proof.
  revert st. induction cs as [|c cs IH]; intros st; simpl; [reflexivity|].
  rewrite <- IH. reflexivity.
Qed.

Lemma parseLongArg_withCommands cmds arg rest st :
  parseLongArg arg rest (withCommands cmds st)
  = (withCommands cmds (fst (parseLongArg arg rest st)), snd (parseLongArg arg rest st)).
Proof.
  unfold parseLongArg. destruct (indexOf _ _); [reflexivity|].
  now destruct (collectValues rest).
Qed.

Lemma parseShortArg_withCommands cmds arg rest st :
  parseShortArg arg rest (withCommands cmds st)
  = (withCommands cmds (fst (parseShortArg arg rest st)), snd (parseShortArg arg rest st)).
Proof.
  unfold parseShortArg.
  destruct (1 <? _); [destruct (sliceFrom 1 arg)|];
    try reflexivity; destruct (collectValues rest); simpl;
    now rewrite ?setFlags_withCommands.
Qed.

(** The loop over the options neither reads nor writes the commands. *)
Lemma optionLoop_withCommands cmds l st :
  optionLoop l (withCommands cmds st) = withCommands cmds (optionLoop l st).
Proof.
  funelim (optionLoop l st); simp optionLoop; [reflexivity|]. cbv zeta.
  rewrite parseLongArg_withCommands, parseShortArg_withCommands. cbn [fst snd].
  change (pushError arg (withCommands cmds st)) with (withCommands cmds (pushError arg st)).
  repeat match goal with
         | |- context [if ?b then _ else _] => destruct b
         end; auto.
Qed.

(** X6.  The commands are the arguments before the first dash-prefixed
    one, all of them and in order; once an option-like argument is seen
    nothing more is a command, and the options and errors come from the
    remaining arguments alone. *)
Theorem commands_are_leading_arguments (args : list string) :
  exists rest,
    args = Types.commands (getResult (parse args)) ++ rest /\
    Forall (fun a => startsWith a "-" = false) (Types.commands (getResult (parse args))) /\
    match rest with [] => True | a :: _ => startsWith a "-" = true end /\
    Types.options (getResult (parse args)) = parsedOptions (optionLoop rest init) /\
    Types.errors (getResult (parse args)) = parsingErrors (optionLoop rest init).
Proof.
  destruct (commandLoop_prefix args init) as (cmds & rest & Hargs & Hc & Hf & Hr).
  exists rest. simpl. unfold parse. rewrite Hc.
  change (mkState (parsedOptions init) (parsedCommands init ++ cmds) (parsingErrors init))
    with (withCommands cmds init).
  rewrite optionLoop_withCommands. simpl. auto.
Qed.

(** X7.  When no argument starts with a dash, every argument is a
    command and there are neither options nor errors. *)
Theorem bare_arguments_are_commands (args : list string)
  (Hbare : Forall (fun a => startsWith a "-" = false) args) :
  getResult (parse args) = mkParserResult [] args [].
Proof.
  destruct (commandLoop_prefix args init) as (cmds & rest & Hargs & Hc & _ & Hr).
  destruct rest as [|a rest].
  - rewrite app_nil_r in Hargs. subst cmds. unfold parse. rewrite Hc.
    simp optionLoop. reflexivity.
  - rewrite Forall_forall in Hbare. rewrite (Hbare a) in Hr; [discriminate|].
    rewrite Hargs. apply in_or_app. right. now left.
Qed.

Lemma bare_arguments_are_commands_witness :
  getResult (parse ["run"; "build"; "a=b"]) = mkParserResult [] ["run"; "build"; "a=b"] [].
Proof. apply bare_arguments_are_commands. repeat constructor. Defined.

(** *** Reading the options object *)

(** [o[k]] for an own property: [None] stands for [undefined]. *)
Fixpoint lookup {V : Type} (o : JsObject.t V) (k : string) : option V :=
  match o with
  | [] => None
  | (k', v) :: o' => if String.eqb k' k then Some v else lookup o' k
  end.

Section Lookup.
Context {V : Type}.
Implicit Types (o : JsObject.t V) (k : string) (v : V).

Lemma lookup_none o k : JsObject.hasOwn o k = false -> lookup o k = None.
Proof.
  induction o as [|[k' v'] o IH]; simpl; [reflexivity|].
  destruct (String.eqb k' k); [discriminate | exact IH].
Qed.

Lemma lookup_replace o k v k' :
  JsObject.hasOwn o k = true ->
  lookup (JsObject.replace k v o) k' = if String.eqb k k' then Some v else lookup o k'.
Proof.
  induction o as [|[k0 v0] o IH]; simpl; [discriminate|].
  destruct (String.eqb k0 k) eqn:E; simpl.
  - intros _. apply String.eqb_eq in E. subst. now destruct (String.eqb k k').
  - intros H. destruct (String.eqb k0 k') eqn:E'.
    + apply String.eqb_eq in E'. subst. now rewrite String.eqb_sym, E.
    + now apply IH.
Qed.

Lemma lookup_insertIndex n o k v k' :
  JsObject.hasOwn o k = false ->
  lookup (JsObject.insertIndex n k v o) k'
  = if String.eqb k k' then Some v else lookup o k'.
Proof.
  induction o as [|[k0 v0] o IH]; simpl; [reflexivity|].
  destruct (String.eqb k0 k) eqn:E; [discriminate|]. intros H.
  assert (Hne : String.eqb k k' = true -> String.eqb k0 k' = false).
  { intros Hk. apply String.eqb_eq in Hk. now subst. }
  destruct (JsObject.arrayIndex k0); [destruct (_ <? _)%N|]; simpl; try reflexivity.
  rewrite (IH H). destruct (String.eqb k k') eqn:Ek; [now rewrite Hne | reflexivity].
Qed.

Lemma lookup_app_last o k v k' :
  JsObject.hasOwn o k = false ->
  lookup (o ++ [(k, v)]) k' = if String.eqb k k' then Some v else lookup o k'.
Proof.
  induction o as [|[k0 v0] o IH]; simpl; [reflexivity|].
  destruct (String.eqb k0 k) eqn:E; [discriminate|]. intros H. rewrite (IH H).
  destruct (String.eqb k0 k') eqn:E'; [|reflexivity].
  apply String.eqb_eq in E'. subst. now rewrite String.eqb_sym, E.
Qed.

(** Reading a property after an assignment: the assigned key gives the
    new value, every other key gives what it gave before, wherever the
    property is placed in the enumeration order. *)
Lemma lookup_set o k v k' :
  lookup (JsObject.set k v o) k' = if String.eqb k k' then Some v else lookup o k'.
Proof.
  unfold JsObject.set. destruct (JsObject.hasOwn o k) eqn:E.
  - now apply lookup_replace.
  - destruct (JsObject.arrayIndex k).
    + now apply lookup_insertIndex.
    + now apply lookup_app_last.
Qed.

End Lookup.

(** X8.  The last occurrence wins: whatever precedes it, a final argument
    [--key=value] leaves the key bound to that value; an option given
    before under the same key is overwritten, not merged. *)
Theorem last_occurrence_wins (args : list string) (key value : string)
  (Hlen : 1 < String.length key) (Hname : isValidName key = true) :
  lookup (Types.options (getResult (parse (args ++ [("--" ++ key ++ String "=" value)%string]))))
         key
  = Some (VString value).
Proof.
  destruct (parse_reaches_dash ("--" ++ key ++ String "=" value)%string
              (startsWith_dash _) args []) as [st ->].
  rewrite (long_equals_assigns _ _ _ _ Hlen Hname). simp optionLoop. simpl.
  now rewrite lookup_set, String.eqb_refl.
Qed.

Lemma last_occurrence_wins_witness :
  lookup (Types.options (getResult (parse ["--10"; "a"; "b"; "-x"; "--10=c"]))) "10"
  = Some (VString "c").
Proof.
  exact (last_occurrence_wins ["--10"; "a"; "b"; "-x"] "10" "c" ltac:(simpl; lia) eq_refl).
Defined.

(** X9.  Every key of the options object is a name accepted by the name
    pattern or a single character of a short token; in particular no
    argument list makes the tokenizer assign to [__proto__]. *)
Theorem option_keys_are_names (argv : list string) :
  Forall (fun k => isValidName k = true \/ String.length k = 1)
         (JsObject.keys (Types.options (tokenize argv))) /\
  ~ In "__proto__" (JsObject.keys (Types.options (tokenize argv))).
Proof.
  destruct (OptionsInv_parse (skipn 2 argv)) as [_ H]. split.
  - unfold JsObject.keys. apply Forall_map. eapply Forall_impl; [|exact H].
    now intros kv [Hk _].
  - apply proto_never_stored.
Qed.

End TokenizerProperties.

(** * Further properties of the dispatcher *)

Module DispatcherProperties.
Import Program ProgramFacts.

(** *** What a cycle leaves in the program *)

Lemma afterCommand_fields p res :
  commands (prog (afterCommand p res)) = commands p /\
  parsingErrors (prog (afterCommand p res)) = parsingErrors p ++ Types.errors res /\
  validationErrors (prog (afterCommand p res)) = validationErrors p.
Proof.
  unfold afterCommand, runCommand.
  now destruct (match Types.commands res with [] => None | c :: _ => _ end).
Qed.

(** X10.  A dispatch cycle changes neither registry, and appends the
    errors of the tokenizer to the parsing errors already recorded:
    nothing is reset between cycles. *)
Theorem parse_keeps_registries (p : State) (res : ParserResult) :
  options (final (parse p res)) = options p /\
  commands (final (parse p res)) = commands p /\
  getParsingErrors (final (parse p res)) = getParsingErrors p ++ Types.errors res.
Proof.
  destruct (parse_lastRun p res) as [-> _].
  destruct (Grows_lastRun p res) as [Ho Hc Hp _ _ _].
  destruct (afterCommand_fields p res) as (Hc' & Hp' & _).
  unfold getParsingErrors. rewrite Ho, Hc, Hp, afterCommand_options. auto.
Qed.

(** X11.  When the first command is registered, its action is the first
    call of the cycle, with the commands after the first as its argument,
    and no other command action is called. *)
Theorem known_command_called (p : State) (res : ParserResult)
  (c : string) (rest : list string) (cmd : CommandOptions)
  (Hcommands : Types.commands res = c :: rest)
  (Hknown : JsMap.get (commands p) c = Some cmd) :
  exists later,
    calls (parse p res) = CommandAction (cid cmd) rest :: later /\
    Forall (fun e => isCommandAction e = false) later.
Proof.
  destruct (parse_lastRun p res) as [_ ->].
  destruct (Grows_lastRun p res) as [_ _ _ _ (tr & Ht & Hf) _].
  assert (Ha : trace (afterCommand p res) = [CommandAction (cid cmd) rest]).
  { unfold afterCommand, runCommand. rewrite Hcommands. cbn -[JsMap.get].
    now rewrite Hknown. }
  exists tr. rewrite Ht, Ha. auto.
Qed.

Lemma known_command_called_witness :
  let p := Program.command (mkCommandOptions 7 "run") Program.new in
  let res := Parser.tokenize ["node"; "cli"; "run"; "build"; "--fast"] in
  exists later, calls (parse p res) = CommandAction 7 ["build"] :: later /\
                Forall (fun e => isCommandAction e = false) later.
Proof.
  intros p res.
  exact (known_command_called p res "run" ["build"] (mkCommandOptions 7 "run")
           eq_refl eq_refl).
Defined.

(** X12.  When the first command is not registered, the whole command
    line (the commands joined by single spaces) is appended to the
    unexpected errors, before anything the options add, and no command
    action is called. *)
Theorem unknown_command_reported (p : State) (res : ParserResult)
  (c : string) (rest : list string)
  (Hcommands : Types.commands res = c :: rest)
  (Hunknown : JsMap.get (commands p) c = None) :
  (exists later,
      getUnexpectedErrors (final (parse p res))
      = getUnexpectedErrors p ++ join " " (c :: rest) :: later) /\
  forall k v, ~ In (CommandAction k v) (calls (parse p res)).
Proof.
  destruct (parse_lastRun p res) as [-> ->].
  destruct (Grows_lastRun p res) as [_ _ _ [us Hu] [tr [Ht Hf]] _].
  assert (Ha : afterCommand p res
               = pushUnexpected (join " " (c :: rest))
                   (pushParsingErrors (Types.errors res) (start p))).
  { unfold afterCommand, runCommand. rewrite Hcommands. cbn -[JsMap.get join].
    now rewrite Hunknown. }
  rewrite Ha in *. simpl in *. split.
  - exists us. unfold getUnexpectedErrors. rewrite Hu. now rewrite <- app_assoc.
  - intros k v Hin. rewrite Ht in Hin. rewrite Forall_forall in Hf.
    apply Hf in Hin. discriminate.
Qed.

Lemma unknown_command_reported_witness :
  let p := Program.command (mkCommandOptions 7 "run") Program.new in
  let res := Parser.tokenize ["node"; "cli"; "deploy"; "now"; "-f"] in
  exists later, getUnexpectedErrors (final (parse p res)) = "deploy now" :: later.
Proof.
  intros p res.
  exact (proj1 (unknown_command_reported p res "deploy" ["now"] eq_refl eq_refl)).
Defined.

(** *** Validation errors *)

Lemma set_nonempty {V : Type} (o : JsObject.t V) k v : JsObject.set k v o <> [].
Proof.
  unfold JsObject.set. destruct (JsObject.hasOwn o k) eqn:E.
  - destruct o as [|[k' v'] o]; [discriminate|]. simpl.
    destruct (String.eqb k' k); discriminate.
  - destruct (JsObject.arrayIndex k).
    + destruct o as [|[k' v'] o]; simpl; [discriminate|].
      destruct (JsObject.arrayIndex k'); [destruct (_ <? _)%N|]; discriminate.
    + destruct o; discriminate.
Qed.

(** The validation errors recorded are never dropped. *)
Definition Persists (r r' : Run) : Prop :=
  validationErrors (prog r) <> [] -> validationErrors (prog r') <> [].

Lemma Persists_processEntry key value r : Persists r (stepRun (processEntry key value r)).
Proof.
  unfold Persists, processEntry.
  destruct (JsMap.get _ key) as [d|]; simpl; auto.
  destruct (includes _ d); simpl; auto.
  destruct (validators d) as [vs|]; simpl; auto.
  destruct (runValidators _ vs) as [errs|e]; [destruct (0 <? _)|]; simpl; auto.
  destruct (String.eqb key "__proto__"); auto. intros _. apply set_nonempty.
Qed.

Lemma Persists_optionLoop entries r : Persists r (fst (optionLoop entries r)).
Proof.
  revert r. induction entries as [|[key value] rest IH]; intros r; simpl;
    [unfold Persists; auto|].
  pose proof (Persists_processEntry key value r) as H.
  destruct (processEntry key value r); simpl in *; auto.
  intros Hne. apply IH. auto.
Qed.

Lemma defaultLoop_prog o vals r : prog (fst (defaultLoop o vals r)) = prog r.
Proof.
  revert r. induction vals as [|d rest IH]; intros r; simpl; [reflexivity|].
  destruct (hasName o (short d)) as [hs|]; [|reflexivity].
  destruct (hasName o (long d)) as [hl|]; [|reflexivity].
  destruct (defaultValue d); [|auto].
  destruct (negb hs && negb hl); [destruct (includes _ d)|]; auto.
  now rewrite IH.
Qed.

(** X13.  Validation errors persist across cycles: once some validation
    error is recorded in the program, every later cycle that resolves,
    resolves to [true], even when nothing fails in that cycle. *)
Theorem stale_validation_errors (p : State) (res : ParserResult) (b : bool)
  (Hstale : getValidationErrors p <> [])
  (Hresolves : settled (parse p res) = Normal b) :
  b = true.
Proof.
  unfold parse in Hresolves. fold (afterCommand p res) in Hresolves.
  pose proof (Persists_optionLoop (Types.options res) (afterCommand p res)) as H.
  destruct (afterCommand_fields p res) as (_ & _ & Hv).
  destruct (optionLoop _ _) as [r [e|]]; simpl in *; [discriminate|].
  pose proof (defaultLoop_prog (Types.options res) (JsMap.values (options (prog r))) r) as Hd.
  destruct (defaultLoop _ _ r) as [r' [e|]]; simpl in *; [discriminate|].
  injection Hresolves as <-. rewrite Hd. unfold Persists in H. rewrite Hv in H.
  specialize (H Hstale). destruct (validationErrors (prog r)); [now elim H | reflexivity].
Qed.

Lemma stale_validation_errors_witness :
  let bad := mkValidator (fun _ => Returns false) "bad value" in
  let a := mkArgOptions 1 (Some "a") None (Some [bad]) None in
  let p := Program.option a Program.new in
  let p1 := final (parse p (mkParserResult [("a", VString "x")] [] [])) in
  getValidationErrors p1 <> [] /\
  settled (parse p1 (mkParserResult [] [] [])) = Normal true.
Proof.
  intros bad a p p1. split; [discriminate|].
  destruct (settled (parse p1 (mkParserResult [] [] []))) as [b|e] eqn:E; [|discriminate].
  f_equal. apply (stale_validation_errors p1 (mkParserResult [] [] []) b);
    [discriminate | exact E].
Defined.

Import TokenizerProperties.

(** X14.  In a cycle that resolves (so that, in particular, no callback
    has thrown), when the option loop meets for the first time a
    declaration whose validators all settle, one of them at least with a
    falsy result and a message, the cycle resolves to [true] and the
    validation errors hold, under the key as it was parsed (the spelling
    used on the command line), exactly the messages of the validators
    with a falsy result and a non-empty message, in the order of the
    validators and joined by newlines. *)
Theorem failure_is_recorded
  (p : State) (res : ParserResult) (key : string) (value : OptionValue)
  (post : list (string * OptionValue)) (r1 : Run)
  (d : ArgOptions) (vs : list Validator) (b : bool)
  (Hreach : Reaches p res key value post r1)
  (Hget : JsMap.get (options p) key = Some d)
  (Hnew : includes (processedOptions r1) d = false)
  (Hvs : validators d = Some vs)
  (Hsettle : Forall (Settles (validatorInput value)) vs)
  (Hfails : existsb (fun v => isFalsy (validatorInput value) v && truthy (message v)) vs
            = true)
  (Hkey : key <> "__proto__")
  (Hresolves : settled (parse p res) = Normal b) :
  b = true /\
  lookup (getValidationErrors (final (parse p res))) key
  = Some (join (String "010" "")
            (map message
               (filter (fun v => isFalsy (validatorInput value) v && truthy (message v))
                       vs))).
Proof.
  destruct (Reaches_keeps _ _ _ _ _ _ Hreach) as [Ho _].
  assert (Hfail : exists r2,
             FailsAt key value r1 r2 /\
             lookup (validationErrors (prog r2)) key
             = Some (join (String "010" "") (failedMessages (validatorInput value) vs))).
  { rewrite <- Ho in Hget. unfold FailsAt.
    rewrite (processEntry_validated key value r1 d vs Hget Hnew Hvs Hsettle).
    unfold failsWithText. rewrite Hfails. eexists. split; [reflexivity|].
    simpl. apply String.eqb_neq in Hkey. rewrite Hkey.
    now rewrite lookup_set, String.eqb_refl. }
  destruct Hfail as (r2 & Hfail & Hlook).
  pose proof (FailsAt_afterOptions _ _ _ _ _ _ _ Hreach Hfail) as Hloop.
  unfold parse in *. fold (afterCommand p res) in *. rewrite Hloop in *.
  pose proof (defaultLoop_prog (Types.options res) (JsMap.values (options (prog r2))) r2)
    as Hprog.
  destruct (defaultLoop _ _ r2) as [r' [e|]]; simpl in *; [discriminate|].
  injection Hresolves as <-. rewrite Hprog. split; [|exact Hlook].
  destruct (validationErrors (prog r2)); [discriminate Hlook | reflexivity].
Qed.

Lemma failure_is_recorded_witness :
  let short := mkValidator (fun _ => Returns false) "too short" in
  let quiet := mkValidator (fun _ => Returns false) "" in
  let fine := mkValidator (fun _ => Returns true) "not shown" in
  let odd := mkValidator (fun _ => Resolves false) "odd" in
  let d := mkArgOptions 1 (Some "n") (Some "name") (Some [short; quiet; fine; odd]) None in
  let p := Program.option d Program.new in
  let res := Parser.tokenize ["node"; "cli"; "--name"; "x"] in
  settled (parse p res) = Normal true /\
  lookup (getValidationErrors (final (parse p res))) "name"
  = Some ("too short" ++ String "010" "" ++ "odd")%string.
Proof.
  intros short quiet fine odd d p res.
  assert (Hreach : Reaches p res "name" (VString "x") [] (afterCommand p res)).
  { exists []. split; reflexivity. }
  assert (Hsettle : Forall (Settles (validatorInput (VString "x")))
                           [short; quiet; fine; odd]).
  { repeat constructor; eexists; reflexivity. }
  split; [reflexivity|].
  exact (proj2 (failure_is_recorded p res "name" (VString "x") [] (afterCommand p res)
                  d [short; quiet; fine; odd] true
                  Hreach eq_refl eq_refl eq_refl Hsettle eq_refl
                  ltac:(discriminate) eq_refl)).
Defined.

(** *** Programs without validators *)

Section NoValidators.
Variable p : State.
Hypothesis Hnoval : forall k d, JsMap.get (options p) k = Some d -> validators d = None.

Definition unregistered (k : string) : bool :=
  match JsMap.get (options p) k with
  | Some _ => false
  | None => true
  end.

Lemma continueAll_total entries r :
  options (prog r) = options p ->
  exists r', continueAll entries r = Some r' /\
             optionLoop entries r = (r', None) /\
             unexpectedErrors (prog r')
             = unexpectedErrors (prog r) ++ filter unregistered (map fst entries).
Proof.
  revert r. induction entries as [|[key value] rest IH]; intros r Ho.
  - exists r. simpl. now rewrite app_nil_r.
  - cbn [continueAll optionLoop map fst filter]. unfold processEntry. rewrite Ho.
    unfold unregistered at 1.
    destruct (JsMap.get (options p) key) as [d|] eqn:G.
    + destruct (includes _ d); [now apply IH|].
      rewrite (Hnoval _ _ G).
      destruct (IH (emit (OptionAction (oid d) value) (pushProcessed d r)) Ho)
        as (r' & H1 & H2 & H3).
      exists r'. auto.
    + destruct (IH (pushUnexpected key r) Ho) as (r' & H1 & H2 & H3).
      exists r'. repeat split; auto. rewrite H3. simpl. now rewrite <- app_assoc.
Qed.

End NoValidators.

(** X15.  When no registered option has validators, in a cycle that
    resolves (so that, in particular, no callback has thrown) every
    parsed key without a registration is reported, in the order of the
    parsed options and after the report of the command (if any): unknown
    options stop nothing; and the cycle resolves to whether validation
    errors were recorded before it. *)
Theorem unknown_options_reported (p : State) (res : ParserResult) (b : bool)
  (Hnoval : forall k d, JsMap.get (options p) k = Some d -> validators d = None)
  (Hresolves : settled (parse p res) = Normal b) :
  getUnexpectedErrors (final (parse p res))
  = unexpectedErrors (prog (afterCommand p res))
    ++ filter (unregistered p) (JsObject.keys (Types.options res)) /\
  b = (0 <? List.length (JsObject.keys (getValidationErrors p))).
Proof.
  destruct (continueAll_total p Hnoval (Types.options res) (afterCommand p res)
              (afterCommand_options p res)) as (r & Hc & Hloop & Hu).
  destruct (continueAll_keeps _ _ _ Hc) as [_ Hv].
  destruct (afterCommand_fields p res) as (_ & _ & Hv').
  unfold parse in *. fold (afterCommand p res) in *. rewrite Hloop in *.
  pose proof (defaultLoop_prog (Types.options res) (JsMap.values (options (prog r))) r)
    as Hprog.
  destruct (defaultLoop _ _ r) as [r' [e|]]; simpl in *; [discriminate|].
  injection Hresolves as <-.
  unfold getUnexpectedErrors, getValidationErrors. rewrite Hprog, Hu, Hv, Hv'. auto.
Qed.

Lemma unknown_options_reported_witness :
  let p := Program.option (mkArgOptions 1 (Some "f") (Some "file") None None) Program.new in
  let res := Parser.tokenize ["node"; "cli"; "-x"; "--file"; "a"; "--yes"] in
  settled (parse p res) = Normal false /\
  getUnexpectedErrors (final (parse p res)) = [""; "x"; "yes"].
Proof.
  intros p res. split; [reflexivity|].
  refine (proj1 (unknown_options_reported p res false _ eq_refl)).
  intros k d H. simpl in H.
  repeat match type of H with
         | context [if ?b then _ else _] => destruct b
         end; try discriminate; now injection H as <-.
Defined.

(** X16.  When no registered option has validators, in a cycle that
    resolves (so that, in particular, no callback has thrown) the action
    of a supplied declaration is called exactly once, with the value of
    the first parsed entry whose key leads to it; the values given under
    its other spelling further on are dropped. *)
Theorem first_spelling_decides
  (p : State) (res : ParserResult) (pre post : list (string * OptionValue))
  (key : string) (value : OptionValue) (d : ArgOptions) (b : bool)
  (Hnoval : forall k d, JsMap.get (options p) k = Some d -> validators d = None)
  (Hentries : Types.options res = pre ++ (key, value) :: post)
  (Hget : JsMap.get (options p) key = Some d)
  (Hfirst : forall k' d', In k' (map fst pre) -> JsMap.get (options p) k' = Some d' ->
                          oid d' <> oid d)
  (Hresolves : settled (parse p res) = Normal b) :
  In (OptionAction (oid d) value) (calls (parse p res)) /\
  actionCount (oid d) (calls (parse p res)) = 1 /\
  forall value', In (OptionAction (oid d) value') (calls (parse p res)) -> value' = value.
Proof.
  destruct (continueAll_total p Hnoval pre (afterCommand p res) (afterCommand_options p res))
    as (r1 & Hc & Hloop & _).
  assert (Hreach : Reaches p res key value post r1) by (exists pre; auto).
  destruct (Reaches_keeps _ _ _ _ _ _ Hreach) as [Ho _].
  assert (Hnew : includes (processedOptions r1) d = false).
  { apply includes_false. intros Hin.
    destruct (optionLoop_only pre (afterCommand p res)) as (tr & ps & _ & Hp & _ & Hg).
    rewrite Hloop, processed_afterCommand, afterCommand_options in *. simpl in Hp.
    rewrite Hp in Hin. apply in_map_iff in Hin as (d' & Hoid & Hin).
    rewrite Forall_forall in Hg. destruct (Hg _ Hin) as (k' & d'' & Hk' & Hg' & Ho').
    apply (Hfirst k' d'' Hk' Hg'). congruence. }
  assert (Hin : In (OptionAction (oid d) value) (calls (parse p res))).
  { destruct (parse_lastRun p res) as [_ ->].
    apply (Grows_trace_incl (afterOptions p res)).
    - pose proof (Grows_lastRun p res) as H. unfold lastRun, afterOptions in *.
      destruct (optionLoop (Types.options res) (afterCommand p res)) as [r [e|]];
        simpl; [apply Grows_refl | apply Grows_defaultLoop].
    - unfold afterOptions. rewrite (Reaches_optionLoop _ _ _ _ _ _ Hreach).
      simpl. unfold processEntry. rewrite Ho, Hget, Hnew, (Hnoval _ _ Hget).
      apply (Grows_trace_incl (emit (OptionAction (oid d) value) (pushProcessed d r1)));
        [apply Grows_optionLoop|].
      simpl. apply in_or_app. right. now left. }
  assert (Hone : actionCount (oid d) (calls (parse p res)) = 1).
  { pose proof (action_once p res (oid d)). apply actionCount_In in Hin. lia. }
  split; [exact Hin | split; [exact Hone|]].
  intros value' Hin'. apply in_split in Hin as (tr1 & tr2 & Htr).
  rewrite Htr in Hone, Hin'. rewrite actionCount_app in Hone.
  change (OptionAction (oid d) value :: tr2)
    with ([OptionAction (oid d) value] ++ tr2) in Hone.
  rewrite actionCount_app in Hone.
  assert (H1 : actionCount (oid d) [OptionAction (oid d) value] = 1).
  { unfold actionCount. simpl. now rewrite Nat.eqb_refl. }
  apply in_app_or in Hin' as [Hin'|[Heq|Hin']].
  - apply actionCount_In in Hin'. lia.
  - now injection Heq.
  - apply actionCount_In in Hin'. lia.
Qed.

Lemma first_spelling_decides_witness :
  let d := mkArgOptions 1 (Some "o") (Some "out") None None in
  let p := Program.option d Program.new in
  let res := Parser.tokenize ["node"; "cli"; "--out"; "a.txt"; "-o"; "b.txt"] in
  settled (parse p res) = Normal false /\
  In (OptionAction 1 (VString "a.txt")) (calls (parse p res)) /\
  actionCount 1 (calls (parse p res)) = 1 /\
  forall value', In (OptionAction 1 value') (calls (parse p res)) ->
                 value' = VString "a.txt".
Proof.
  intros d p res. split; [reflexivity|].
  apply (first_spelling_decides p res [] [("o", VString "b.txt")]
           "out" (VString "a.txt") d false);
    try reflexivity.
  - intros k d' H. simpl in H.
    repeat match type of H with
           | context [if ?b then _ else _] => destruct b
           end; try discriminate; now injection H as <-.
  - intros k' d' [].
Defined.

(** *** Validation is run once *)








(** X18.  [runValidators] runs every validator, without stopping at the
    first failure: when all of them settle, it returns the messages of
    those that evaluate to a falsy value and have a non-empty message, in
    the order of the validators. *)
Theorem runValidators_collects_all (input : ValidatorInput) (vs : list Validator)
  (Hsettle : Forall (Settles input) vs) :
  runValidators input vs
  = Normal (map message (filter (fun v => isFalsy input v && truthy (message v)) vs)).
Proof. exact (runValidators_settled input vs Hsettle). Qed.

Lemma runValidators_collects_all_witness :
  let vs := [mkValidator (fun _ => Returns true) "Error 1";
             mkValidator (fun _ => Returns false) "Error 2";
             mkValidator (fun _ => Resolves true) "Error 3";
             mkValidator (fun _ => Resolves false) "Error 4";
             mkValidator (fun _ => Returns false) ""] in
  runValidators (InString "test") vs = Normal ["Error 2"; "Error 4"].
Proof.
  intros vs. apply (runValidators_collects_all (InString "test") vs).
  repeat constructor; eexists; reflexivity.
Defined.

(** *** Sequences of registrations *)

(** [new Program().option(d1).option(d2)...] *)
Definition registerAll (ds : list ArgOptions) : State :=
  fold_left (fun p d => Program.option d p) ds Program.new.

Lemma registerAll_snoc ds d : registerAll (ds ++ [d]) = Program.option d (registerAll ds).
Proof. unfold registerAll. now rewrite fold_left_app. Qed.

(** X19.  After any sequence of registrations, a key of the option
    registry leads to one of the registered declarations, and to one that
    bears that key as its short or long name. *)
Theorem registry_keys_are_names (ds : list ArgOptions) (k : string) (d : ArgOptions)
  (Hget : JsMap.get (options (registerAll ds)) k = Some d) :
  hasKey d k = true /\ In d ds.
Proof.
  revert Hget. induction ds as [|d' ds IH] using rev_ind; [discriminate|].
  rewrite registerAll_snoc, get_option. destruct (hasKey d' k) eqn:E.
  - intros [= <-]. split; [exact E | apply in_or_app; right; now left].
  - intros H. destruct (IH H). split; [assumption | apply in_or_app; now left].
Qed.

Lemma registry_keys_are_names_witness :
  let d1 := mkArgOptions 1 (Some "v") (Some "verbose") None None in
  let d2 := mkArgOptions 2 (Some "v") (Some "version") None None in
  hasKey d2 "v" = true /\ In d2 [d1; d2].
Proof.
  intros d1 d2. exact (registry_keys_are_names [d1; d2] "v" d2 eq_refl).
Defined.

(** X20.  The last registration wins, key by key: a key leads to the last
    declaration of the sequence that bears it as a name. *)
Theorem last_registration_wins (ds1 ds2 : list ArgOptions) (d : ArgOptions) (k : string)
  (Hkey : hasKey d k = true)
  (Hlater : forall d', In d' ds2 -> hasKey d' k = false) :
  JsMap.get (options (registerAll (ds1 ++ d :: ds2))) k = Some d.
Proof.
  induction ds2 as [|d' ds2 IH] using rev_ind.
  - change (ds1 ++ [d]) with (ds1 ++ [d]). rewrite registerAll_snoc, get_option.
    now rewrite Hkey.
  - replace (ds1 ++ d :: ds2 ++ [d']) with ((ds1 ++ d :: ds2) ++ [d'])
      by (now rewrite <- app_assoc).
    rewrite registerAll_snoc, get_option.
    rewrite (Hlater d') by (apply in_or_app; right; now left).
    apply IH. intros d0 H0. apply Hlater. apply in_or_app. now left.
Qed.

Lemma last_registration_wins_witness :
  let d1 := mkArgOptions 1 (Some "v") (Some "verbose") None None in
  let d2 := mkArgOptions 2 (Some "v") (Some "version") None None in
  let d3 := mkArgOptions 3 (Some "q") None None None in
  JsMap.get (options (registerAll [d1; d2; d3])) "v" = Some d2 /\
  JsMap.get (options (registerAll [d1; d2; d3])) "verbose" = Some d1.
Proof.
  intros d1 d2 d3. split.
  - apply (last_registration_wins [d1] [d3] d2 "v"); [reflexivity|].
    intros d' [<-|[]]. reflexivity.
  - apply (last_registration_wins [] [d2; d3] d1 "verbose"); [reflexivity|].
    intros d' [<-|[<-|[]]]; reflexivity.
Defined.

(** *** The registered options, without repetition *)

Lemma setOf_spec vals seen :
  NoDup (map oid seen) ->
  NoDup (map oid (setOf seen vals)) /\
  (forall d, In d (setOf seen vals) -> In d seen \/ In d vals) /\
  (forall d, In d seen \/ In d vals ->
             exists d', In d' (setOf seen vals) /\ oid d' = oid d).
Proof.
  revert seen. induction vals as [|o rest IH]; intros seen Hnd; simpl.
  - repeat split; [assumption | tauto |]. intros d [H|[]]. eauto.
  - destruct (includes seen o) eqn:E.
    + destruct (IH seen Hnd) as (H1 & H2 & H3). repeat split; [assumption | |].
      * intros d H. destruct (H2 d H); auto.
      * intros d [H|[<-|H]]; [apply H3; auto | | apply H3; auto].
        apply includes_In, in_map_iff in E as (d' & Ho & Hin).
        destruct (H3 d' (or_introl Hin)) as (d'' & Hin'' & Ho''). exists d''.
        split; [assumption | congruence].
    + assert (Hnd' : NoDup (map oid (seen ++ [o]))).
      { rewrite map_app. simpl. apply NoDup_app; [assumption | repeat constructor; simpl; tauto|].
        apply includes_false in E. intros x Hx [<-|[]]. contradiction. }
      destruct (IH _ Hnd') as (H1 & H2 & H3). repeat split; [assumption | |].
      * intros d H. destruct (H2 d H) as [[H'|[<-|[]]]%in_app_or|H']; auto.
      * intros d [H|[<-|H]]; apply H3; [left| left | right]; auto;
          apply in_or_app; [now left | right; now left].
Qed.

(** X21.  [getRegisteredOptions] lists registered declarations only, and
    each declaration object once, also when it is registered under both a
    short and a long name. *)
Theorem registered_options_distinct (p : State) :
  NoDup (map oid (getRegisteredOptions p)) /\
  (forall d, In d (getRegisteredOptions p) -> Registered p d) /\
  (forall d, Registered p d ->
             exists d', In d' (getRegisteredOptions p) /\ oid d' = oid d).
Proof.
  destruct (setOf_spec (JsMap.values (options p)) [] (NoDup_nil _)) as (H1 & H2 & H3).
  repeat split; [exact H1 | |].
  - intros d H. destruct (H2 d H) as [[]|H']. exact H'.
  - intros d H. apply H3. now right.
Qed.

Example registered_options_example :
  let v := mkArgOptions 1 (Some "v") (Some "verbose") None None in
  let q := mkArgOptions 2 None (Some "quiet") None None in
  getRegisteredOptions (registerAll [v; q; v]) = [v; q].
Proof. reflexivity. Qed.

(** *** Commands *)

(** [new Program().command(c1).command(c2)...] *)
Definition registerCommands (cs : list CommandOptions) : State :=
  fold_left (fun p c => Program.command c p) cs Program.new.

Lemma registerCommands_snoc cs c :
  registerCommands (cs ++ [c]) = Program.command c (registerCommands cs).
Proof. unfold registerCommands. now rewrite fold_left_app. Qed.

Section MapEntries.
Context {V : Type}.
Implicit Types (m : JsMap.t V) (k : string) (v : V).

Lemma In_keys_map_set m k v k0 :
  In k0 (map fst (JsMap.set k v m)) <-> k0 = k \/ In k0 (map fst m).
Proof.
  induction m as [|[k1 v1] m IH]; simpl; [intuition|].
  destruct (String.eqb k1 k) eqn:E; simpl.
  - apply String.eqb_eq in E. subst. intuition.
  - rewrite IH. intuition.
Qed.

Lemma NoDup_keys_map_set m k v :
  NoDup (map fst m) -> NoDup (map fst (JsMap.set k v m)).
Proof.
  induction m as [|[k1 v1] m IH]; simpl; intros Hnd.
  - constructor; [tauto | constructor].
  - inversion Hnd as [|? ? Hnin Hnd']; subst.
    destruct (String.eqb k1 k) eqn:E; simpl.
    + now constructor.
    + constructor; [|now apply IH]. rewrite In_keys_map_set.
      apply String.eqb_neq in E. intuition.
Qed.

Lemma Forall_map_set (P : string * V -> Prop) m k v :
  Forall P m -> P (k, v) -> Forall P (JsMap.set k v m).
Proof.
  intros Hm Hkv. induction Hm as [|[k1 v1] m H1 Hm IH]; simpl.
  - now constructor.
  - destruct (String.eqb k1 k) eqn:E; constructor; auto.
    apply String.eqb_eq in E. now subst.
Qed.

End MapEntries.

(** Every command is filed under its own name, and no name twice. *)
Definition CommandsInv (p : State) : Prop :=
  NoDup (map fst (commands p)) /\
  Forall (fun kc => name (snd kc) = fst kc) (commands p).

Lemma CommandsInv_registerCommands cs : CommandsInv (registerCommands cs).
Proof.
  induction cs as [|c cs [H1 H2]] using rev_ind.
  - split; constructor.
  - rewrite registerCommands_snoc. split; simpl.
    + now apply NoDup_keys_map_set.
    + now apply Forall_map_set.
Qed.

Lemma registerCommands_from cs c :
  In c (getRegisteredCommands (registerCommands cs)) -> In c cs.
Proof.
  induction cs as [|c' cs IH] using rev_ind; [intros []|].
  rewrite registerCommands_snoc. unfold getRegisteredCommands. simpl.
  intros H. apply In_values_set in H as [->|H]; apply in_or_app;
    [right; now left | left; now apply IH].
Qed.

(** X22.  After any sequence of command registrations, the registered
    commands have distinct names and are among those registered; a name
    leads to the last command registered under it, which replaces the
    earlier ones. *)
Theorem command_registry (cs1 cs2 : list CommandOptions) (c : CommandOptions)
  (Hlater : forall c', In c' cs2 -> name c' <> name c) :
  let p := registerCommands (cs1 ++ c :: cs2) in
  NoDup (map name (getRegisteredCommands p)) /\
  (forall c', In c' (getRegisteredCommands p) -> In c' (cs1 ++ c :: cs2)) /\
  JsMap.get (commands p) (name c) = Some c /\
  In c (getRegisteredCommands p).
Proof.
  intros p. assert (Hget : JsMap.get (commands p) (name c) = Some c).
  { unfold p. clear p. induction cs2 as [|c' cs2 IH] using rev_ind.
    - rewrite registerCommands_snoc. simpl. now rewrite get_set, String.eqb_refl.
    - replace (cs1 ++ c :: cs2 ++ [c']) with ((cs1 ++ c :: cs2) ++ [c'])
        by (now rewrite <- app_assoc).
      rewrite registerCommands_snoc. simpl. rewrite get_set.
      assert (Hne : name c' <> name c) by (apply Hlater, in_or_app; right; now left).
      apply String.eqb_neq in Hne. rewrite Hne.
      apply IH. intros c0 H0. apply Hlater, in_or_app. now left. }
  destruct (CommandsInv_registerCommands (cs1 ++ c :: cs2)) as [Hnd Hall].
  fold p in Hnd, Hall. repeat split.
  - unfold getRegisteredCommands, JsMap.values. rewrite map_map.
    rewrite (map_ext_in _ fst); [exact Hnd|].
    rewrite Forall_forall in Hall. intros kc Hin. now apply Hall.
  - apply registerCommands_from.
  - exact Hget.
  - eapply get_In_values. exact Hget.
Qed.

Lemma command_registry_witness :
  let run1 := mkCommandOptions 1 "run" in
  let build := mkCommandOptions 2 "build" in
  let run2 := mkCommandOptions 3 "run" in
  getRegisteredCommands (registerCommands [run1; build; run2]) = [run2; build] /\
  JsMap.get (commands (registerCommands [run1; build; run2])) "run" = Some run2.
Proof.
  intros run1 build run2. split; [reflexivity|].
  apply (command_registry [run1; build] [] run2). intros c' [].
Defined.

End DispatcherProperties.

(** * Properties of [stringWidth] and of the padding of table cells *)

Module UtilsProperties.
Import Utils Table.

Lemma fold_width_acc cps acc :
  fold_left (fun width code => width + charWidth code) cps acc
  = acc + fold_left (fun width code => width + charWidth code) cps 0.
Proof.
  revert acc. induction cps as [|c cps IH]; intros acc; simpl; [lia|].
  rewrite IH, (IH (charWidth c)). lia.
Qed.

Lemma fold_width_app cps1 cps2 :
  fold_left (fun width code => width + charWidth code) (cps1 ++ cps2) 0
  = fold_left (fun width code => width + charWidth code) cps1 0
    + fold_left (fun width code => width + charWidth code) cps2 0.
Proof. now rewrite fold_left_app, fold_width_acc. Qed.

Lemma charWidth_le code : charWidth code <= 2.
Proof.
  unfold charWidth.
  repeat match goal with
         | |- context [if ?b then _ else _] => destruct b
         end; lia.
Qed.

Lemma codePoints_pair h l t :
  codePoints (h :: l :: t)
  = if isHighSurrogate h && isLowSurrogate l
    then (0x10000 + (h - 0xD800) * 0x400 + (l - 0xDC00))%N :: codePoints t
    else h :: codePoints (l :: t).
Proof. reflexivity. Qed.

Lemma codePoints_length input : List.length (codePoints input) <= List.length input.
Proof.
  assert (H : forall n input, List.length input <= n ->
                              List.length (codePoints input) <= List.length input).
  { induction n as [|n IH]; intros [|h t] Hn; cbn [List.length] in Hn;
      try lia; try (cbn; lia).
    destruct t as [|l t']; [cbn; lia|].
    rewrite codePoints_pair. cbn [List.length] in *.
    destruct (isHighSurrogate h && isLowSurrogate l); cbn [List.length].
    - specialize (IH t' ltac:(lia)). lia.
    - specialize (IH (l :: t') ltac:(cbn [List.length]; lia)).
      cbn [List.length] in IH. lia. }
  apply (H (List.length input)). lia.
Qed.

Lemma fold_width_le cps :
  fold_left (fun width code => width + charWidth code) cps 0 <= 2 * List.length cps.
Proof.
  induction cps as [|c cps IH]; simpl; [lia|].
  rewrite fold_width_acc. pose proof (charWidth_le c). lia.
Qed.

(** X23.  The display width of a string is at most twice the number of
    its code points, hence at most twice its length in code units. *)
Theorem stringWidth_bound (input : list N) :
  stringWidth input <= 2 * List.length (codePoints input) /\
  stringWidth input <= 2 * List.length input.
Proof.
  unfold stringWidth. pose proof (fold_width_le (codePoints input)).
  pose proof (codePoints_length input). lia.
Qed.

Ltac decide_ranges :=
  repeat match goal with
         | |- context [(?a <=? ?b)%N] =>
             first [ rewrite (proj2 (N.leb_le a b)) by lia
                   | rewrite (proj2 (N.leb_gt a b)) by lia ]
         | |- context [(?a =? ?b)%N] => rewrite (proj2 (N.eqb_neq a b)) by lia
         end.

Lemma printable_not_surrogate u :
  (0x20 <= u <= 0x7e)%N -> isHighSurrogate u = false /\ isLowSurrogate u = false.
Proof. intros H. unfold isHighSurrogate, isLowSurrogate. decide_ranges. auto. Qed.

Lemma printable_width u : (0x20 <= u <= 0x7e)%N -> charWidth u = 1.
Proof. intros H. unfold charWidth. decide_ranges. reflexivity. Qed.

Lemma codePoints_plain input :
  Forall (fun u => isHighSurrogate u = false) input -> codePoints input = input.
Proof.
  induction 1 as [|h t Hh _ IH]; [reflexivity|].
  destruct t as [|l t']; [reflexivity|]. rewrite codePoints_pair, Hh. cbn [andb].
  now rewrite IH.
Qed.

(** X24.  A string of printable ASCII characters (code units [0x20] to
    [0x7e]) is as wide as it is long. *)
Theorem stringWidth_ascii (input : list N)
  (Hascii : Forall (fun u => (0x20 <= u <= 0x7e)%N) input) :
  stringWidth input = List.length input.
Proof.
  unfold stringWidth. rewrite codePoints_plain.
  - induction Hascii as [|u t Hu _ IH]; [reflexivity|]. simpl.
    rewrite fold_width_acc, IH, (printable_width _ Hu). reflexivity.
  - eapply Forall_impl; [|exact Hascii]. intros u Hu.
    now apply printable_not_surrogate.
Qed.

Lemma stringWidth_ascii_witness : stringWidth [0x61; 0x62; 0x20; 0x7e]%N = 4.
Proof. apply stringWidth_ascii. repeat constructor; lia. Defined.

Lemma codePoints_app a b :
  match b with [] => True | l :: _ => isLowSurrogate l = false end ->
  codePoints (a ++ b) = codePoints a ++ codePoints b.
Proof.
  intros Hb.
  assert (H : forall n a, List.length a <= n ->
                          codePoints (a ++ b) = codePoints a ++ codePoints b).
  { induction n as [|n IH]; intros [|h t] Hn; cbn [List.length] in Hn;
      try lia; try reflexivity.
    destruct t as [|l t'].
    - destruct b as [|l b']; [reflexivity|].
      cbn [app]. rewrite codePoints_pair. now rewrite Hb, andb_false_r.
    - cbn [app]. rewrite !codePoints_pair. cbn [List.length] in Hn.
      destruct (isHighSurrogate h && isLowSurrogate l).
      + rewrite (IH t') by lia. reflexivity.
      + change (l :: t' ++ b) with ((l :: t') ++ b).
        rewrite (IH (l :: t')) by (cbn [List.length]; lia). reflexivity. }
  apply (H (List.length a)). lia.
Qed.

(** X25.  Widths add up under concatenation, provided the second string
    does not begin with a low surrogate (which could pair with the end of
    the first). *)
Theorem stringWidth_app (a b : list N)
  (Hseam : match b with [] => True | l :: _ => isLowSurrogate l = false end) :
  stringWidth (a ++ b) = stringWidth a + stringWidth b.
Proof. unfold stringWidth. now rewrite (codePoints_app _ _ Hseam), fold_width_app. Qed.

Lemma stringWidth_app_witness :
  stringWidth ([0x4e2d; 0xD83D; 0xDE00] ++ [0x61; 0x0301])%N = 4 + 1.
Proof. exact (stringWidth_app [0x4e2d; 0xD83D; 0xDE00]%N [0x61; 0x0301]%N eq_refl). Defined.





Example pad_center_example :
  pad [0x4e2d; 0x61]%N 8 AlignCenter
  = [0x20; 0x20; 0x4e2d; 0x61; 0x20; 0x20; 0x20]%N.
Proof. reflexivity. Qed.

End UtilsProperties.

(** * Properties of the string validators, alone and under the dispatcher *)

Module ValidatorProperties.
Import Validators Program ProgramFacts.

Lemma forallb_andb {A : Type} (f g : A -> bool) xs :
  forallb (fun x => f x && g x) xs = forallb f xs && forallb g xs.
Proof.
  induction xs as [|x xs IH]; simpl; [reflexivity|]. rewrite IH.
  destruct (f x), (g x), (forallb f xs); reflexivity.
Qed.

(** X27.  [isLengthInRange] accepts an input, a string or an array,
    exactly when [minLength] of its lower bound and [maxLength] of its
    upper bound both accept it. *)
Theorem length_range_is_min_and_max
  (show : Z -> string) (min max : Z) (m1 m2 m3 : Datatypes.option string) (input : ValidatorInput) :
  exists a b,
    validate (minLength show min m1) input = Returns a /\
    validate (maxLength show max m2) input = Returns b /\
    validate (isLengthInRange show min max m3) input = Returns (a && b).
Proof.
  destruct input as [s|xs]; simpl.
  - eauto.
  - do 2 eexists. split; [reflexivity|]. split; [reflexivity|].
    now rewrite forallb_andb.
Qed.

Lemma set_singleton {V : Type} k (v : V) : JsObject.set k v [] = [(k, v)].
Proof. unfold JsObject.set. simpl. now destruct (JsObject.arrayIndex k). Qed.

Lemma validName_truthy key : Parser.isValidName key = true -> truthy key = true.
Proof. now destruct key. Qed.

(** X28.  A long option given without a value is validated as the empty
    string: against [minLength] of one character or more it always fails.
    The message is recorded under the key, the action is not called and
    the cycle resolves to [true]. *)
Theorem flag_without_value_fails_minLength
  (show : Z -> string) (key : string) (n : Z) (text : Datatypes.option string)
  (id : nat) (node script : string)
  (Hlen : 1 < String.length key) (Hname : Parser.isValidName key = true)
  (Hkey : key <> "hasOwnProperty")
  (Hmin : (1 <= n)%Z)
  (Htext : text <> Some "") :
  let v := minLength show n text in
  let d := mkArgOptions id None (Some key) (Some [v]) None in
  let out := parse (Program.option d Program.new)
                   (Parser.tokenize [node; script; ("--" ++ key)%string]) in
  settled out = Normal true /\
  getValidationErrors (final out) = [(key, message v)] /\
  calls out = [Validation id (InString "")].
Proof.
  intros v d out.
  assert (Htok : Parser.tokenize [node; script; ("--" ++ key)%string]
                 = mkParserResult [(key, VBool true)] [] []).
  { unfold Parser.tokenize, Parser.parse. cbn [skipn Parser.commandLoop].
    assert (Hd : startsWith ("--" ++ key) "-" = true) by now destruct key.
    unfold Parser.notDash. rewrite Hd. cbn [negb].
    pose proof (TokenizerProperties.long_collects_values key [] [] Parser.init Hlen Hname
                  (Forall_nil _) I) as H.
    cbn [app] in H. rewrite H. rewrite Parser.optionLoop_equation_1.
    unfold Parser.getResult, Parser.setOption. simpl. now rewrite set_singleton. }
  assert (Hmsg : truthy (message v) = true).
  { unfold v. simpl. destruct text as [[|c m]|]; [now elim Htext | reflexivity | reflexivity]. }
  assert (Hrun : runValidators (InString "") [v] = Normal [message v]).
  { assert (Hval : validate v (InString "") = Returns false).
    { unfold v, minLength. cbn.
      now replace (n <=? 0)%Z with false by (symmetry; apply Z.leb_gt; lia). }
    unfold runValidators. cbn [runValidatorsFrom]. rewrite Hval. cbn [negb andb].
    now rewrite Hmsg. }
  assert (Ht : truthy key = true) by now apply validName_truthy.
  assert (Hnp : String.eqb key "__proto__" = false).
  { apply String.eqb_neq. intros ->. discriminate. }
  assert (Hhop : String.eqb key "hasOwnProperty" = false) by now apply String.eqb_neq.
  assert (Hp : Program.option d Program.new = mkState [(key, d)] [] [] [] []).
  { unfold Program.option, setOptionKey. cbn [short long]. unfold d at 1 2. cbn [short long].
    now rewrite Ht. }
  unfold out. rewrite Htok, Hp. unfold parse, d.
  repeat first [ rewrite String.eqb_refl | rewrite Hnp | rewrite Hhop | rewrite Hrun
               | rewrite Ht | rewrite set_singleton
               | progress unfold processEntry, setValidationError, hasName, hasOwnProperty,
                   JsObject.hasOwn, includes, finish
               | progress cbn -[v runValidators String.eqb truthy JsObject.set] ].
  auto.
Qed.

Lemma flag_without_value_fails_minLength_witness :
  let show := fun _ : Z => "3" in
  let d := mkArgOptions 1 None (Some "name") (Some [minLength show 3 None]) None in
  let out := parse (Program.option d Program.new)
                   (Parser.tokenize ["node"; "cli"; "--name"]) in
  settled out = Normal true /\
  getValidationErrors (final out) = [("name", "Please enter at least 3 characters.")] /\
  calls out = [Validation 1 (InString "")].
Proof.
  intros show d out.
  exact (flag_without_value_fails_minLength show "name" 3 None 1 "node" "cli"
           ltac:(simpl; lia) eq_refl ltac:(discriminate) ltac:(lia) ltac:(discriminate)).
Defined.

(** The cases of the test suite of the validators. *)
Example test_minLength :
  let v := minLength (fun _ => "3") 3 None in
  validate v (InString "  abcd  ") = Returns true /\
  validate v (InString "  ") = Returns false /\
  validate v (InArray ["abc"; "def"; " xyz "]) = Returns true /\
  validate v (InArray ["ab"; "cd"; " xy "; "abc"]) = Returns false.
Proof. repeat split; reflexivity. Qed.

Example test_inList :
  let v := inList ["apple"; "banana"; "orange"] None in
  validate v (InString "  apple  ") = Returns true /\
  validate v (InString "") = Returns false /\
  validate v (InArray ["apple"; "grape"]) = Returns false /\
  message v = "Input is not allowed.".
Proof. repeat split; reflexivity. Qed.

End ValidatorProperties.
